(** * OcTreeBase: coordinate/key codec, point lookup, ray traversal and
      voxel enumeration of [src/octomap/OcTreeBase.hxx]

    The C++ code works on [double]s, [int]s, [unsigned int]s and
    [unsigned short int]s.  Doubles are embedded as IEEE 754 binary64 values
    ([spec_float] at precision 53 and maximal exponent 1024, round to nearest
    even); machine integers are embedded as [Z] with every conversion and
    wrap-around written out. *)

From Stdlib Require Import ZArith List Bool Lia Permutation.
From Stdlib Require Import Floats.SpecFloat.
Import ListNotations.
Local Open Scope Z_scope.

(** ** Machine integers *)

Module MachInt.

Definition INT_MIN : Z := - 2 ^ 31.
Definition INT_MAX : Z := 2 ^ 31 - 1.

(** Conversion to [unsigned int]. *)
Definition uint_of (z : Z) : Z := z mod 2 ^ 32.

(** Conversion to [int] (two's complement). *)
Definition int_of (z : Z) : Z := (z + 2 ^ 31) mod 2 ^ 32 - 2 ^ 31.

(** Conversion to [unsigned short int]. *)
Definition ushort_of (z : Z) : Z := z mod 2 ^ 16.

End MachInt.
Import MachInt.

(** ** Doubles *)

Module Double.

Definition prec : Z := 53.
Definition emax : Z := 1024.

Definition double : Type := spec_float.

Definition dadd : double -> double -> double := SFadd prec emax.
Definition dsub : double -> double -> double := SFsub prec emax.
Definition dmul : double -> double -> double := SFmul prec emax.
Definition ddiv : double -> double -> double := SFdiv prec emax.
Definition dsqrt : double -> double := SFsqrt prec emax.
Definition fabs : double -> double := SFabs.

(** [a < b], [a > b], [a != b]; every ordered comparison with a NaN is
    false and [!=] with a NaN is true. *)
Definition dlt (a b : double) : bool := SFltb a b.
Definition dgt (a b : double) : bool := SFltb b a.
Definition dle (a b : double) : bool := SFleb a b.
Definition dne (a b : double) : bool := negb (SFeqb a b).

(** The double [m * 2^e], rounded if it has more than 53 digits. *)
Definition dyadic (m e : Z) : double := binary_normalize prec emax m e false.

(** [(double) z] for an integer [z]. *)
Definition of_Z (z : Z) : double := dyadic z 0.

Definition zero : double := S754_zero false.
Definition half : double := dyadic 1 (-1).
Definition one : double := of_Z 1.
(** The literal [1e6], the sentinel of [computeRay]. *)
Definition sentinel : double := of_Z 1000000.

(** [pow(2., n)] for an integral exponent [n]: the power of two itself,
    [+inf] on overflow. *)
Definition pow2 (n : Z) : double := SFldexp prec emax one n.

(** The mathematical floor of a finite double; [None] for NaN and the
    infinities. *)
Definition Zfloor (x : double) : option Z :=
  match x with
  | S754_zero _ => Some 0
  | S754_finite s m e =>
      let v := cond_Zopp s (Zpos m) in
      Some (if 0 <=? e then v * 2 ^ e else v / 2 ^ (- e))
  | S754_infinity _ | S754_nan => None
  end.

(** [(int) floor(x)].  [floor] returns an integral double, which the cast
    converts exactly when it lies in the range of [int].  Outside that
    range (and for NaN and the infinities) C++ leaves the cast undefined;
    the embedding fixes the value the x86-64 conversion instruction
    produces there, [INT_MIN]. *)
Definition int_of_floor (x : double) : Z :=
  match Zfloor x with
  | Some z => if (INT_MIN <=? z) && (z <=? INT_MAX) then z else INT_MIN
  | None => INT_MIN
  end.

Definition is_nan (x : double) : bool :=
  match x with S754_nan => true | _ => false end.

End Double.
Import Double.

(** ** Points *)

(** Modelled from the spec: the point type [point3d] is not part of the
    translated source; section 6 asks of it per-axis component access,
    subtraction, the Euclidean norm ([norm2]) and unit-vector normalisation
    ([unit]). *)
Record point3d : Type := P3 { px : double; py : double; pz : double }.

(** [p(i)] *)
Definition coord (p : point3d) (i : nat) : double :=
  match i with O => px p | S O => py p | _ => pz p end.

Definition p_sub (a b : point3d) : point3d :=
  P3 (dsub (px a) (px b)) (dsub (py a) (py b)) (dsub (pz a) (pz b)).

Definition norm2 (p : point3d) : double :=
  dsqrt (dadd (dadd (dmul (px p) (px p)) (dmul (py p) (py p)))
              (dmul (pz p) (pz p))).

Definition unit (p : point3d) : point3d :=
  let n := norm2 p in P3 (ddiv (px p) n) (ddiv (py p) n) (ddiv (pz p) n).

(** ** Arrays of three *)

Definition arr3 (A : Type) : Type := (A * A * A)%type.

Definition nth3 {A} (a : arr3 A) (i : nat) : A :=
  let '(a0, a1, a2) := a in
  match i with O => a0 | S O => a1 | _ => a2 end.

Definition upd3 {A} (a : arr3 A) (i : nat) (v : A) : arr3 A :=
  let '(a0, a1, a2) := a in
  match i with O => (v, a1, a2) | S O => (a0, v, a2) | _ => (a0, a1, v) end.

(** ** Nodes *)

(** Modelled from the spec: the node class [NODE] is a template parameter
    that is not part of the translated source; section 6 asks of it
    [childExists(octant)], [hasChildren()] and [getChild(octant)].  A node
    carries a payload and its eight child slots. *)
#[local] Unset Elimination Schemes.
Inductive node (A : Type) : Type :=
  Node (payload : A) (children : Z -> option (node A)).
#[local] Set Elimination Schemes.
Arguments Node {A} payload children.

Definition octants : list Z := [0; 1; 2; 3; 4; 5; 6; 7].

Definition getChild {A} (n : node A) (i : Z) : option (node A) :=
  match n with Node _ cs => cs i end.

Definition childExists {A} (n : node A) (i : Z) : bool :=
  match getChild n i with Some _ => true | None => false end.

Definition hasChildren {A} (n : node A) : bool :=
  existsb (childExists n) octants.

(** A node without children. *)
Definition leaf {A} (a : A) : node A := Node a (fun _ => None).

(** ** The tree *)

(** Modelled from the spec: the declaration of the class [OcTreeBase] is
    not part of the translated source; section 3 lists its attributes and
    the constructor names them.  The casts [(unsigned int) scaled_val <
    (2*tree_max_val)] of [genKey] and [(int) tree_max_val] of [computeRay]
    show [tree_max_val] to be an [unsigned int], and so is [tree_depth]. *)
Record OcTreeBase (A : Type) : Type := mkOcTreeBase {
  itsRoot : option (node A);
  tree_depth : Z;            (* unsigned int *)
  tree_max_val : Z;          (* unsigned int *)
  resolution : double;
  resolution_factor : double;
  tree_center : point3d;
  tree_size : Z;
  maxValue : point3d;
  minValue : point3d;
  sizeChanged : bool
}.
Arguments mkOcTreeBase {A}.
Arguments itsRoot {A}.
Arguments tree_depth {A}.
Arguments tree_max_val {A}.
Arguments resolution {A}.
Arguments resolution_factor {A}.
Arguments tree_center {A}.
Arguments tree_size {A}.
Arguments maxValue {A}.
Arguments minValue {A}.
Arguments sizeChanged {A}.

Definition setResolution {A} (t : OcTreeBase A) (r : double) : OcTreeBase A :=
  let rf := ddiv one r in
  let c := ddiv (of_Z (tree_max_val t)) rf in
  mkOcTreeBase (itsRoot t) (tree_depth t) (tree_max_val t) r rf (P3 c c c)
    (tree_size t) (maxValue t) (minValue t) (sizeChanged t).

(** The constructor [OcTreeBase(double _resolution)]. *)
Definition OcTreeBase_ctor (A : Type) (_resolution : double) : OcTreeBase A :=
  let t0 := mkOcTreeBase None 16 32768 _resolution zero (P3 zero zero zero) 0
              (P3 zero zero zero) (P3 zero zero zero) false in
  let t1 := setResolution t0 _resolution in
  let big := of_Z 1000000 in
  mkOcTreeBase (itsRoot t1) (tree_depth t1) (tree_max_val t1) (resolution t1)
    (resolution_factor t1) (tree_center t1) (tree_size t1)
    (P3 (SFopp big) (SFopp big) (SFopp big)) (P3 big big big) true.

(** ** Coordinate/key codec *)

Section Codec.
Context {A : Type}.
Variable t : OcTreeBase A.

(** [bool genKey(double val, unsigned short int& key)]: [Some key] when
    the call returns [true] and stores [key]; [None] when it returns
    [false] and leaves [key] alone. *)
Definition genKey (val : double) : option Z :=
  let scaled_val :=
    int_of (uint_of (int_of_floor (dmul (resolution_factor t) val)
                     + tree_max_val t)) in
  if (0 <? scaled_val)
     && (uint_of scaled_val <? uint_of (2 * tree_max_val t))
  then Some (ushort_of scaled_val)
  else None.

(** [bool genKeys(const point3d& point, unsigned short int (&keys)[3])] *)
Definition genKeys (point : point3d) : option (arr3 Z) :=
  match genKey (coord point 0) with
  | None => None
  | Some k0 =>
      match genKey (coord point 1) with
      | None => None
      | Some k1 =>
          match genKey (coord point 2) with
          | None => None
          | Some k2 => Some (k0, k1, k2)
          end
      end
  end.

(** [bool genVal(unsigned short int& key, double& val)]: the returned
    pair is the result and the contents of [val] after the call; the
    argument [val] is its contents before. *)
Definition genVal (key : Z) (val : double) : bool * double :=
  let val := zero in
  if uint_of (2 * tree_max_val t) <=? key then (false, val)
  else
    let val := dmul (dadd (dsub (of_Z key) (of_Z (tree_max_val t))) half)
                    (resolution t) in
    (true, val).

(** [unsigned int genPos(unsigned short int key[], int i)].  [1 << i] is a
    shift of an [int]: C++ defines it for [0 <= i <= 30], the levels
    [tree_depth - 1], ..., [0] that [search] passes for a depth of at most
    31; outside this range the definition below says nothing of the
    program. *)
Definition genPos (key : arr3 Z) (i : Z) : Z :=
  let retval := 0 in
  let retval :=
    if Z.land (nth3 key 0) (Z.shiftl 1 i) =? 0 then retval else retval + 1 in
  let retval :=
    if Z.land (nth3 key 1) (Z.shiftl 1 i) =? 0 then retval else retval + 2 in
  let retval :=
    if Z.land (nth3 key 2) (Z.shiftl 1 i) =? 0 then retval else retval + 4 in
  retval.

End Codec.

(** ** Point lookup *)

(** What [search] hands back: a node, [NULL], or no value at all when the
    descent dereferences a [NULL] root. *)
Inductive lookup (A : Type) : Type :=
  | Found (n : node A)
  | Null
  | NullDeref.
Arguments Found {A} n.
Arguments Null {A}.
Arguments NullDeref {A}.

Section Search.
Context {A : Type}.
Variable t : OcTreeBase A.

(** The loop [for (int i = tree_depth-1; i >= 0; i--)] of [search] with
    [levels] iterations left, that is at [i = levels - 1]. *)
Fixpoint search_loop (levels : nat) (curNode : node A) (key : arr3 Z)
  : lookup A :=
  match levels with
  | O => Found curNode
  | S i =>
      let pos := genPos key (Z.of_nat i) in
      match getChild curNode pos with
      | Some child => search_loop i child key
      | None =>
          if negb (hasChildren curNode) then Found curNode else Null
      end
  end.

(** The number of iterations of that loop: [i] starts at
    [(int) (tree_depth - 1)]. *)
Definition search_levels : nat :=
  Z.to_nat (int_of (uint_of (tree_depth t - 1)) + 1).

(** [NODE* search(const point3d& value)] *)
Definition search (value : point3d) : lookup A :=
  match genKeys t value with
  | None => Null
  | Some key =>
      match itsRoot t with
      | None => match search_levels with O => Null | S _ => NullDeref end
      | Some root => search_loop search_levels root key
      end
  end.

End Search.

(** ** Ray traversal *)

(** Why a call of [computeRay] returned [false]: the four places that
    write a diagnostic and return. *)
Inductive ray_error : Type :=
  | OriginOutOfBounds (i : nat)
  | EndOutOfBounds (i : nat)
  | HitBoundary (i : nat)
  | GenValFailed.

(** The returned [bool]. *)
Inductive ray_status : Type :=
  | RayTrue
  | RayFalse (e : ray_error).

(** What the initialisation loop computes for one axis. *)
Record axis_init : Type := AxisInit {
  a_voxelIdx : Z;     (* unsigned short int *)
  a_endIdx : Z;       (* unsigned short int *)
  a_step : Z;         (* int *)
  a_tMax : double;
  a_tDelta : double
}.

(** The variables the incremental phase changes. *)
Record ray_state : Type := RayState {
  voxelIdx : arr3 Z;          (* unsigned short int [3] *)
  tMax : arr3 double;
  _ray : list point3d
}.

(** The selection [// find minimum tMax] at the head of the loop body. *)
Definition min_tMax (tMax : arr3 double) : nat :=
  if dlt (nth3 tMax 0) (nth3 tMax 1) then
    if dlt (nth3 tMax 0) (nth3 tMax 2) then 0%nat else 2%nat
  else
    if dlt (nth3 tMax 1) (nth3 tMax 2) then 1%nat else 2%nat.

Section Ray.
Context {A : Type}.
Variable t : OcTreeBase A.

(** One iteration of the initialisation loop [for (i = 0; i < 3; ++i)]. *)
Definition init_axis (origin end_ direction : point3d) (i : nat)
  : ray_error + axis_init :=
  match genKey t (coord origin i) with
  | None => inl (OriginOutOfBounds i)
  | Some voxelIdx_i =>
      match genKey t (coord end_ i) with
      | None => inl (EndOutOfBounds i)
      | Some endIdx_i =>
          let step_i :=
            if dgt (coord direction i) zero then 1
            else if dlt (coord direction i) zero then -1
            else 0 in
          let voxelBorder :=
            dmul (of_Z (int_of (voxelIdx_i - int_of (tree_max_val t))))
                 (resolution t) in
          let voxelBorder :=
            if 0 <? step_i then dadd voxelBorder (resolution t)
            else voxelBorder in
          if dne (coord direction i) zero then
            inr (AxisInit voxelIdx_i endIdx_i step_i
                   (ddiv (dsub voxelBorder (coord origin i))
                         (coord direction i))
                   (ddiv (resolution t) (fabs (coord direction i))))
          else
            inr (AxisInit voxelIdx_i endIdx_i step_i sentinel sentinel)
      end
  end.

(** The three calls [genVal(voxelIdx[j], val[j])] of the loop body; the
    array [val] is uninitialised before them. *)
Definition genVal3 (voxelIdx : arr3 Z) : option point3d :=
  match genVal t (nth3 voxelIdx 0) zero with
  | (false, _) => None
  | (true, v0) =>
      match genVal t (nth3 voxelIdx 1) zero with
      | (false, _) => None
      | (true, v1) =>
          match genVal t (nth3 voxelIdx 2) zero with
          | (false, _) => None
          | (true, v2) => Some (P3 v0 v1 v2)
          end
      end
  end.

(** One iteration of the incremental phase [while (!done)]: either the
    variables for the next iteration, or the returned [bool] with the
    contents of [_ray]. *)
Definition ray_iter (origin : point3d) (maxLength : double)
    (step : arr3 Z) (tDelta : arr3 double) (s : ray_state)
  : ray_state + ray_status * list point3d :=
  let i := min_tMax (tMax s) in
  let voxelIdx :=
    upd3 (voxelIdx s) i
      (ushort_of (nth3 (voxelIdx s) i + nth3 step i)) in
  if (0 <=? nth3 voxelIdx i)
     && (nth3 voxelIdx i <? uint_of (2 * tree_max_val t))
  then
    let tMax := upd3 (tMax s) i (dadd (nth3 (tMax s) i) (nth3 tDelta i)) in
    match genVal3 voxelIdx with
    | None => inr (RayFalse GenValFailed, _ray s)
    | Some value =>
        if dgt (norm2 (p_sub value origin)) maxLength
        then inr (RayTrue, _ray s)
        else inl (RayState voxelIdx tMax (_ray s ++ [value]))
    end
  else inr (RayFalse (HitBoundary i), _ray s).

(** The loop itself: [None] when [fuel] iterations do not finish it. *)
Fixpoint computeRay_loop (fuel : nat) (origin : point3d)
    (maxLength : double) (step : arr3 Z) (tDelta : arr3 double)
    (s : ray_state) : option (ray_status * list point3d) :=
  match fuel with
  | O => None
  | S fuel' =>
      match ray_iter origin maxLength step tDelta s with
      | inl s' => computeRay_loop fuel' origin maxLength step tDelta s'
      | inr res => Some res
      end
  end.

(** [bool computeRay(const point3d& origin, const point3d& end,
    std::vector<point3d>& _ray)]; the argument [_ray] is the contents of
    the vector before the call. *)
Definition computeRay (fuel : nat) (origin end_ : point3d)
    (_ray : list point3d) : option (ray_status * list point3d) :=
  let _ray : list point3d := [] in
  let direction := unit (p_sub end_ origin) in
  let maxLength := norm2 (p_sub end_ origin) in
  match init_axis origin end_ direction 0 with
  | inl e => Some (RayFalse e, _ray)
  | inr a0 =>
      match init_axis origin end_ direction 1 with
      | inl e => Some (RayFalse e, _ray)
      | inr a1 =>
          match init_axis origin end_ direction 2 with
          | inl e => Some (RayFalse e, _ray)
          | inr a2 =>
              let voxelIdx := (a_voxelIdx a0, a_voxelIdx a1, a_voxelIdx a2) in
              let endIdx := (a_endIdx a0, a_endIdx a1, a_endIdx a2) in
              if (nth3 voxelIdx 0 =? nth3 endIdx 0)
                 && (nth3 voxelIdx 1 =? nth3 endIdx 1)
                 && (nth3 voxelIdx 2 =? nth3 endIdx 2)
              then Some (RayTrue, _ray)
              else
                computeRay_loop fuel origin maxLength
                  (a_step a0, a_step a1, a_step a2)
                  (a_tDelta a0, a_tDelta a1, a_tDelta a2)
                  (RayState voxelIdx (a_tMax a0, a_tMax a1, a_tMax a2) _ray)
          end
      end
  end.

End Ray.

(** ** Enumeration *)

(** [OcTreeVolume]: a centre and an edge length. *)
Definition OcTreeVolume : Type := (point3d * double)%type.

Section Enumeration.
Context {A : Type}.
Variable t : OcTreeBase A.

(** The centre of octant [i] of a node centred at [parent_center]. *)
Definition search_center (parent_center : point3d) (center_offset : double)
    (i : Z) : point3d :=
  P3 (if Z.land i 1 =? 0 then dsub (px parent_center) center_offset
      else dadd (px parent_center) center_offset)
     (if Z.land i 2 =? 0 then dsub (py parent_center) center_offset
      else dadd (py parent_center) center_offset)
     (if Z.land i 4 =? 0 then dsub (pz parent_center) center_offset
      else dadd (pz parent_center) center_offset).

(** [tree_center(0) / pow(2., (double) depth + 1)] *)
Definition center_offset (depth : Z) : double :=
  ddiv (px (tree_center t)) (pow2 (depth + 1)).

(** [resolution * pow(2., double(tree_depth - depth))] *)
Definition voxelSize (depth : Z) : double :=
  dmul (resolution t) (pow2 (uint_of (tree_depth t - depth))).

(** [getLeafNodesRecurs] for a non-null [node]: the records it pushes to
    [nodes], in order. *)
Fixpoint getLeafNodesRecurs (max_depth : Z) (n : node A) (depth : Z)
    (parent_center : point3d) : list OcTreeVolume :=
  if depth <=? max_depth then
    if hasChildren n && negb (depth =? max_depth) then
      flat_map (fun i =>
          match getChild n i with
          | Some child =>
              getLeafNodesRecurs max_depth child (depth + 1)
                (search_center parent_center (center_offset depth) i)
          | None => []
          end) octants
    else [(p_sub parent_center (tree_center t), voxelSize depth)]
  else [].

(** [getVoxelsRecurs] for a non-null [node]: the records it pushes to
    [voxels], in order. *)
Fixpoint getVoxelsRecurs (max_depth : Z) (n : node A) (depth : Z)
    (parent_center : point3d) : list OcTreeVolume :=
  if depth <=? max_depth then
    if hasChildren n && negb (depth =? max_depth) then
      flat_map (fun i =>
          match getChild n i with
          | Some child =>
              getVoxelsRecurs max_depth child (depth + 1)
                (search_center parent_center (center_offset depth) i)
          | None => [(p_sub parent_center (tree_center t), voxelSize depth)]
          end) octants
    else []
  else [].

(** [getLeafNodes]: [None] when [assert(itsRoot)] fails, otherwise the
    contents of [nodes] after the call. *)
Definition getLeafNodes (nodes : list OcTreeVolume) (max_depth : Z)
  : option (list OcTreeVolume) :=
  match itsRoot t with
  | None => None
  | Some root =>
      if tree_size t <=? 1 then Some nodes
      else
        let max_depth := if max_depth =? 0 then tree_depth t else max_depth in
        Some (nodes ++ getLeafNodesRecurs max_depth root 0 (tree_center t))
  end.

(** [getVoxels]: [None] when [assert(itsRoot)] fails, otherwise the
    contents of [voxels] after the call. *)
Definition getVoxels (voxels : list OcTreeVolume) (max_depth : Z)
  : option (list OcTreeVolume) :=
  match itsRoot t with
  | None => None
  | Some root =>
      let max_depth := if max_depth =? 0 then tree_depth t else max_depth in
      Some (voxels ++ getVoxelsRecurs max_depth root 0 (tree_center t))
  end.

End Enumeration.

(** ** Definitions that follow the specification's words *)

(** Section 4.2: [octantIndex(keys, level)] reads bit [level] of each of
    the three keys and packs them as [bitX | (bitY<<1) | (bitZ<<2)]. *)
Definition octantIndex (keys : arr3 Z) (level : Z) : Z :=
  Z.lor (Z.b2z (Z.testbit (nth3 keys 0) level))
    (Z.lor (Z.shiftl (Z.b2z (Z.testbit (nth3 keys 1) level)) 1)
           (Z.shiftl (Z.b2z (Z.testbit (nth3 keys 2) level)) 2)).

(** Section 4.3: the octants of the levels [levels-1], ..., [0], coarse to
    fine. *)
Fixpoint octant_path (keys : arr3 Z) (levels : nat) : list Z :=
  match levels with
  | O => []
  | S i => octantIndex keys (Z.of_nat i) :: octant_path keys i
  end.

(** Section 4.3: descend while the octant's child exists; a node without
    any children is returned as it is; a node that has children but not
    this one makes the lookup absent; the node reached after the last level
    is returned. *)
Fixpoint descend {A} (cur : node A) (path : list Z) {struct path}
  : option (node A) :=
  match path with
  | [] => Some cur
  | o :: rest =>
      match getChild cur o with
      | Some child => descend child rest
      | None => if hasChildren cur then None else Some cur
      end
  end.

(** Section 8, ray tie-break: among the axes with the smallest [tMax] the
    lowest-numbered one. *)
Definition lowest_min_tMax (tMax : arr3 double) : nat :=
  if dle (nth3 tMax 0) (nth3 tMax 1) && dle (nth3 tMax 0) (nth3 tMax 2)
  then 0%nat
  else if dle (nth3 tMax 1) (nth3 tMax 2) then 1%nat else 2%nat.

(** Section 8, ray monotonicity: the distances from [origin] to the points
    of a sequence increase strictly. *)
Fixpoint strictly_increasing (ds : list double) : bool :=
  match ds with
  | d1 :: ((d2 :: _) as rest) => dlt d1 d2 && strictly_increasing rest
  | _ => true
  end.

Definition distances (origin : point3d) (ray : list point3d) : list double :=
  map (fun p => norm2 (p_sub p origin)) ray.

Section EnumerationSpec.
Context {A : Type}.
Variable t : OcTreeBase A.

(** Section 4.5: [center_offset = tree_center.axis / 2^(depth+1)]. *)
Definition spec_center_offset (axis : nat) (depth : Z) : double :=
  ddiv (coord (tree_center t) axis) (of_Z (2 ^ (depth + 1))).

(** Section 4.5: the centre of a child, computed from its parent's centre
    by adding or subtracting the offset per axis depending on the
    corresponding bit of the octant index (bit set: add, clear:
    subtract). *)
Definition spec_child_center (center : point3d) (depth octant : Z)
  : point3d :=
  let moved (axis : nat) :=
    if Z.testbit octant (Z.of_nat axis)
    then dadd (coord center axis) (spec_center_offset axis depth)
    else dsub (coord center axis) (spec_center_offset axis depth) in
  P3 (moved 0%nat) (moved 1%nat) (moved 2%nat).

(** Section 4.5: edge length = [resolution * 2^(tree_depth - depth)]. *)
Definition spec_edge (depth : Z) : double :=
  dmul (resolution t) (of_Z (2 ^ (tree_depth t - depth))).

(** Section 4.5: the internal nodes reached strictly above the depth
    cutoff, each with its depth and its centre. *)
Fixpoint spec_internal_nodes (max_depth : Z) (n : node A) (depth : Z)
    (center : point3d) : list (node A * Z * point3d) :=
  if (depth <? max_depth) && hasChildren n then
    (n, depth, center)
    :: flat_map (fun i =>
         match getChild n i with
         | Some child =>
             spec_internal_nodes max_depth child (depth + 1)
               (spec_child_center center depth i)
         | None => []
         end) octants
  else [].

(** Section 4.5: one volume per octant that does not exist, with centre
    (node centre - tree centre) and the edge of the node's depth. *)
Definition spec_gap_records (v : node A * Z * point3d) : list OcTreeVolume :=
  let '(n, depth, center) := v in
  map (fun _ => (p_sub center (tree_center t), spec_edge depth))
      (filter (fun i => negb (childExists n i)) octants).

End EnumerationSpec.

(** A subtree of at most [h] levels below its root. *)
Fixpoint height_le {A} (h : nat) (n : node A) : Prop :=
  match h with
  | O => hasChildren n = false
  | S h' => forall i child, In i octants -> getChild n i = Some child ->
            height_le h' child
  end.

(** ** Definitions used by the proofs *)

(** The values of an [unsigned short int [3]]. *)
Definition ushort3 (k : arr3 Z) : Prop :=
  0 <= nth3 k 0 < 65536 /\ 0 <= nth3 k 1 < 65536 /\ 0 <= nth3 k 2 < 65536.

(** The enumeration as the code runs it. *)

Section EnumerationTrace.
Context {A : Type}.
Variable t : OcTreeBase A.

(** The nodes at which [getVoxelsRecurs] enters its loop over the octants,
    each with its depth and the [parent_center] the recursion passed. *)
Fixpoint internal_nodes (max_depth : Z) (n : node A) (depth : Z)
    (center : point3d) : list (node A * Z * point3d) :=
  if (depth <? max_depth) && hasChildren n then
    (n, depth, center)
    :: flat_map (fun i =>
         match getChild n i with
         | Some child =>
             internal_nodes max_depth child (depth + 1)
               (search_center center (center_offset t depth) i)
         | None => []
         end) octants
  else [].

(** The records that loop pushes at such a node, one per octant whose
    child does not exist. *)
Definition gap_records (v : node A * Z * point3d) : list OcTreeVolume :=
  let '(n, depth, center) := v in
  map (fun _ => (p_sub center (tree_center t), voxelSize t depth))
      (filter (fun i => negb (childExists n i)) octants).

End EnumerationTrace.

(** The order of doubles. *)

(** A double that is not a NaN, as a triple of integers whose
    lexicographic order is the order of the doubles. *)
Definition ord (x : double) : Z * Z * Z :=
  match x with
  | S754_infinity true => (-2, 0, 0)
  | S754_finite true m e => (-1, - e, - Z.pos m)
  | S754_zero _ => (0, 0, 0)
  | S754_finite false m e => (1, e, Z.pos m)
  | S754_infinity false => (2, 0, 0)
  | S754_nan => (3, 0, 0)
  end.

Definition lex_lt (a b : Z * Z * Z) : Prop :=
  let '(a1, a2, a3) := a in
  let '(b1, b2, b3) := b in
  a1 < b1 \/ (a1 = b1 /\ (a2 < b2 \/ (a2 = b2 /\ a3 < b3))).

(** A tree of three levels only, as no constructor of the class builds it:
    its keys at and above 8 are out of range for [genVal]. *)
Definition small_tree : OcTreeBase Datatypes.unit :=
  setResolution
    (mkOcTreeBase None 3 4 one one (P3 zero zero zero) 0
       (P3 zero zero zero) (P3 zero zero zero) false)
    one.

(** Rounding. *)

(** The record [mrs] stands for the fraction [N/D] after [k] shifts: its
    mantissa is the integer part of [N / (D * 2^k)], its round bit says
    whether the rest reaches one half, its sticky bit whether the rest
    is neither nothing nor one half. *)
Definition shr_inv (N D k : Z) (mrs : shr_record) : Prop :=
  let P := 2 ^ k * D in
  let rest := N - shr_m mrs * P in
  0 <= shr_m mrs
  /\ 0 <= rest < P
  /\ (shr_r mrs = true <-> P <= 2 * rest)
  /\ (shr_s mrs = true <-> rest <> 0 /\ 2 * rest <> P).

(** [P] holds of every integer with [bits] binary digits after the
    leading digits [base]. *)
Fixpoint all_below (bits : nat) (base : Z) (P : Z -> bool) : bool :=
  match bits with
  | O => P base
  | S b => all_below b (2 * base) P && all_below b (2 * base + 1) P
  end.

(** The centre [(double(k) - 32768) + 0.5] of key [k], before it is scaled
    by the resolution, is the normal double of value [(2k - 65535) / 2]. *)
Definition center_check (k : Z) : bool :=
  match dadd (dsub (of_Z k) (of_Z 32768)) half with
  | S754_finite s mc ec =>
      Bool.eqb s (k <? 32768)
      && (2 ^ 52 <=? Z.pos mc) && (Z.pos mc <? 2 ^ 53)
      && (-53 <=? ec) && (ec <=? -38)
      && (Z.pos mc =? Z.abs (2 * k - 65535) * 2 ^ (- ec - 1))
  | _ => false
  end.

(** [pow(2., n)] and [(double) 2^n] are both the double of mantissa
    [2^52] and exponent [n - 52]. *)
Definition pow2_check (n : Z) : bool :=
  match pow2 n, of_Z (2 ^ n) with
  | S754_finite false m1 e1, S754_finite false m2 e2 =>
      (Z.pos m1 =? 2 ^ 52) && (e1 =? n - 52)
      && (Z.pos m2 =? 2 ^ 52) && (e2 =? n - 52)
  | _, _ => false
  end.

(** A resolution that is a normal double with [2^-1021 <= r < 2^1008]:
    a mantissa of 53 digits and an exponent that keeps the reciprocal and
    every voxel centre away from underflow and overflow. *)
Definition resolution_ok (r : double) : Prop :=
  match r with
  | S754_finite false m e => 2 ^ 52 <= Z.pos m < 2 ^ 53 /\ -1073 <= e <= 955
  | _ => False
  end.

(** ** Definitions used by the further properties *)

(** Section 4.3: the node reached from [n] along [path] when every octant
    on it exists. *)
Fixpoint follow {A} (n : node A) (path : list Z) {struct path}
  : option (node A) :=
  match path with
  | [] => Some n
  | o :: rest =>
      match getChild n o with
      | Some child => follow child rest
      | None => None
      end
  end.

(** The indices after the loop body of [computeRay] advanced axis [i]. *)
Definition advance (step k : arr3 Z) (i : nat) : arr3 Z :=
  upd3 k i (ushort_of (nth3 k i + nth3 step i)).

(** A sequence of index triples each of which is the one before it,
    starting with [k], advanced along one axis. *)
Fixpoint stepwise (step k : arr3 Z) (ks : list (arr3 Z)) : Prop :=
  match ks with
  | [] => True
  | k' :: rest =>
      (exists i, (i < 3)%nat /\ k' = advance step k i)
      /\ stepwise step k' rest
  end.

(** The number of nodes without children in the subtree of [n]. *)
Fixpoint leaves {A} (n : node A) : nat :=
  if hasChildren n then
    list_sum (map (fun i => match getChild n i with
                            | Some child => leaves child
                            | None => 0%nat
                            end) octants)
  else 1%nat.

(** An origin and an end inside the volume of a tree of resolution 1.0,
    (-1.5, 0.5, 0.5) and (32767.75, 0.5, 0.5), and the length
    [norm2 (end - origin)] of the ray between them. *)
Definition loop_origin : point3d := P3 (dyadic (-3) (-1)) half half.
Definition loop_end : point3d := P3 (dyadic 131071 (-2)) half half.
Definition loop_maxLength : double :=
  Eval vm_compute in norm2 (p_sub loop_end loop_origin).

(** The doubles 32768.0, 0.5, 1.0 and -1.5, evaluated once. *)
Definition d32768 : double := Eval vm_compute in of_Z 32768.
Definition d_half : double := Eval vm_compute in half.
Definition d_one : double := Eval vm_compute in one.
Definition d_origin_x : double := Eval vm_compute in dyadic (-3) (-1).

(** The x coordinate [genVal] gives key [k] at resolution 1.0, and the test
    that the centre of the voxel [(k, 32768, 32768)], whose y and z
    coordinates are those of [loop_origin], is not farther from
    [loop_origin] than [loop_end] is. *)
Definition center_x (k : Z) : double :=
  dmul (dadd (dsub (of_Z k) d32768) d_half) d_one.
Definition stays_within (k : Z) : bool :=
  let dx := dsub (center_x k) d_origin_x in
  negb (dgt (dsqrt (dadd (dadd (dmul dx dx) zero) zero)) loop_maxLength).

(** A double that is a NaN or an infinity. *)
Definition non_finite (x : double) : bool :=
  match x with
  | S754_nan | S754_infinity _ => true
  | S754_zero _ | S754_finite _ _ _ => false
  end.

(** ** Machine integers: facts *)

Module MachIntFacts.

Lemma ushort_of_range z : 0 <= ushort_of z < 65536.
Proof. unfold ushort_of. change (2 ^ 16) with 65536. apply Z.mod_pos_bound. lia. Qed.

Lemma ushort_of_small z : 0 <= z < 65536 -> ushort_of z = z.
Proof. intros H. unfold ushort_of. change (2 ^ 16) with 65536. apply Z.mod_small; lia. Qed.

Lemma uint_of_small z : 0 <= z < 2 ^ 32 -> uint_of z = z.
Proof. intros H. unfold uint_of. apply Z.mod_small; lia. Qed.

Lemma int_of_small z : - 2 ^ 31 <= z < 2 ^ 31 -> int_of z = z.
Proof.
  intros H. unfold int_of. rewrite Z.mod_small; lia.
Qed.

Lemma int_of_uint_of z : int_of (uint_of z) = int_of z.
Proof.
  unfold int_of, uint_of.
  rewrite Zplus_mod_idemp_l. reflexivity.
Qed.

Lemma int_of_high z : 2 ^ 31 <= z < 2 ^ 32 -> int_of z = z - 2 ^ 32.
Proof.
  intros H. unfold int_of.
  replace (z + 2 ^ 31) with ((z - 2 ^ 31) + 1 * 2 ^ 32) by lia.
  rewrite Z_mod_plus_full, Z.mod_small; lia.
Qed.

End MachIntFacts.
Import MachIntFacts.

(** ** The codec *)

Section CodecFacts.
Context {A : Type}.
Variable t : OcTreeBase A.

Lemma int_of_floor_range x : INT_MIN <= int_of_floor x <= INT_MAX.
Proof.
  unfold int_of_floor.
  destruct (Zfloor x) as [z|]; [|unfold INT_MIN, INT_MAX; lia].
  destruct (INT_MIN <=? z) eqn:E1; destruct (z <=? INT_MAX) eqn:E2; simpl;
    unfold INT_MIN, INT_MAX in *; lia.
Qed.

(** The value of [scaled_val] in [genKey], without the conversions. *)
Lemma scaled_val_cases f :
  INT_MIN <= f <= INT_MAX -> 0 < tree_max_val t <= 32768 ->
  let s := int_of (uint_of (f + tree_max_val t)) in
  (f + tree_max_val t < 2 ^ 31 /\ s = f + tree_max_val t)
  \/ (2 ^ 31 <= f + tree_max_val t /\ s < 0).
Proof.
  unfold INT_MIN, INT_MAX. intros Hf Ht. cbv zeta.
  rewrite int_of_uint_of.
  destruct (Z_lt_le_dec (f + tree_max_val t) (2 ^ 31)) as [Hlt|Hge].
  - left. split; [assumption|]. apply int_of_small. lia.
  - right. split; [assumption|]. rewrite int_of_high; lia.
Qed.

Lemma genKey_ushort val key : genKey t val = Some key -> 0 <= key < 65536.
Proof.
  unfold genKey. destruct (_ && _); [|discriminate].
  intros [= <-]. apply ushort_of_range.
Qed.

Lemma genVal_prior key v1 v2 : genVal t key v1 = genVal t key v2.
Proof. reflexivity. Qed.

End CodecFacts.

(** [genKey] without the conversions between integer types. *)
Lemma genKey_eq (A : Type) (t : OcTreeBase A) (val : double) :
  0 < tree_max_val t <= 32768 ->
  genKey t val =
    match Zfloor (dmul (resolution_factor t) val) with
    | Some f =>
        let scaled := f + tree_max_val t in
        if (0 <? scaled) && (scaled <? 2 * tree_max_val t)
        then Some scaled else None
    | None => None
    end.
Proof.
  intros Ht. unfold genKey.
  pose proof (int_of_floor_range (dmul (resolution_factor t) val)) as Hr.
  pose proof (scaled_val_cases t _ Hr Ht) as Hs. cbv zeta in Hs.
  rewrite (uint_of_small (2 * tree_max_val t)) by lia.
  unfold int_of_floor in *.
  set (s := int_of _) in *.
  assert (Hu : 0 < s -> uint_of s = s).
  { intros Hpos. apply uint_of_small.
    destruct Hs as [[_ ->]|[_ Hneg]]; unfold INT_MIN, INT_MAX in *; lia. }
  assert (Hfail : s <= 0 ->
            (if (0 <? s) && (uint_of s <? 2 * tree_max_val t)
             then Some (ushort_of s) else None) = None).
  { intros Hle. apply Z.ltb_ge in Hle. rewrite Hle. reflexivity. }
  destruct (Zfloor (dmul (resolution_factor t) val)) as [f|].
  - cbv zeta.
    destruct (Z_lt_le_dec 0 (f + tree_max_val t)) as [Hp|Hp];
      [destruct (Z_lt_le_dec (f + tree_max_val t) (2 * tree_max_val t))
         as [Hq|Hq]|].
    + (* in range *)
      assert (Ein : (INT_MIN <=? f) && (f <=? INT_MAX) = true).
      { apply andb_true_intro.
        split; apply Z.leb_le; unfold INT_MIN, INT_MAX; lia. }
      rewrite Ein in Hs.
      assert (Es : s = f + tree_max_val t).
      { destruct Hs as [[_ Heq]|[Hge _]]; [exact Heq|lia]. }
      rewrite Hu by lia. rewrite Es.
      apply Z.ltb_lt in Hp. apply Z.ltb_lt in Hq. rewrite Hp, Hq.
      apply Z.ltb_lt in Hp. apply Z.ltb_lt in Hq.
      rewrite ushort_of_small by lia. reflexivity.
    + (* at or above the upper bound *)
      apply Z.ltb_ge in Hq. rewrite Hq, andb_false_r.
      apply Z.ltb_ge in Hq.
      destruct (0 <? s) eqn:Epos; [|reflexivity].
      apply Z.ltb_lt in Epos. rewrite (Hu Epos).
      assert (Es : 2 * tree_max_val t <= s).
      { destruct ((INT_MIN <=? f) && (f <=? INT_MAX)) eqn:Ein.
        - destruct Hs as [[_ Heq]|[_ Hneg]]; lia.
        - destruct Hs as [[_ Heq]|[_ Hneg]]; unfold INT_MIN in *; lia. }
      apply Z.ltb_ge in Es. rewrite Es. reflexivity.
    + (* at or below zero *)
      apply Z.ltb_ge in Hp. rewrite Hp. apply Z.ltb_ge in Hp.
      apply Hfail.
      destruct ((INT_MIN <=? f) && (f <=? INT_MAX)) eqn:Ein.
      * destruct Hs as [[_ Heq]|[_ Hneg]]; lia.
      * destruct Hs as [[_ Heq]|[_ Hneg]]; unfold INT_MIN in *; lia.
  - apply Hfail.
    destruct Hs as [[_ Heq]|[_ Hneg]]; unfold INT_MIN in *; lia.
Qed.

(** C6 (codec bounds).  [genKey] computes [scaled = floor(val *
    resolution_factor) + tree_max_val] and returns the key [scaled] exactly
    when [0 < scaled < 2*tree_max_val]; for every other value, and when the
    product is not a finite number, it fails.  With resolution 1.0 (and
    [tree_max_val = 32768]) the coordinate 0.5 encodes to 32768 and the key
    32768 decodes to 0.5. *)
Theorem genKey_bounds (A : Type) :
  (forall (t : OcTreeBase A) (val : double),
      0 < tree_max_val t <= 32768 ->
      genKey t val =
        match Zfloor (dmul (resolution_factor t) val) with
        | Some f =>
            let scaled := f + tree_max_val t in
            if (0 <? scaled) && (scaled <? 2 * tree_max_val t)
            then Some scaled else None
        | None => None
        end)
  /\ genKey (OcTreeBase_ctor A one) half = Some 32768
  /\ (forall v, genVal (OcTreeBase_ctor A one) 32768 v = (true, half)).
Proof.
  split; [|split; [vm_compute; reflexivity|intros v; vm_compute; reflexivity]].
  intros t val Ht. apply genKey_eq. exact Ht.
Qed.

Lemma genKey_bounds_witness :
  let t := OcTreeBase_ctor Datatypes.unit (dyadic 1 (-2)) in
  genKey t (dyadic (-5) (-1)) = Some 32758
  /\ genKey t (of_Z 8192) = None.
Proof.
  intros t. split.
  - rewrite (proj1 (genKey_bounds Datatypes.unit) t (dyadic (-5) (-1))
               ltac:(vm_compute; split; [reflexivity|discriminate])).
    reflexivity.
  - rewrite (proj1 (genKey_bounds Datatypes.unit) t (of_Z 8192)
               ltac:(vm_compute; split; [reflexivity|discriminate])).
    reflexivity.
Defined.

(** C10 ([genVal] always overwrites its output).  Whatever [val] held
    before the call, a key at or above [2*tree_max_val] makes [genVal]
    return [false] with [val] equal to 0.0, and a key below it makes
    [genVal] return [true] with [val] equal to the voxel centre
    [((double(key) - tree_max_val) + 0.5) * resolution]. *)
Theorem genVal_overwrites (A : Type) (t : OcTreeBase A) (key : Z)
    (val : double) :
  (uint_of (2 * tree_max_val t) <= key -> genVal t key val = (false, zero))
  /\ (key < uint_of (2 * tree_max_val t) ->
      genVal t key val =
        (true,
         dmul (dadd (dsub (of_Z key) (of_Z (tree_max_val t))) half)
              (resolution t))).
Proof.
  unfold genVal. split; intros H.
  - apply Z.leb_le in H. rewrite H. reflexivity.
  - apply Z.leb_gt in H. rewrite H. reflexivity.
Qed.

Lemma genVal_overwrites_witness :
  genVal small_tree 9 one = (false, zero)
  /\ genVal (OcTreeBase_ctor Datatypes.unit one) 32768 one = (true, half).
Proof.
  split.
  - apply (proj1 (genVal_overwrites _ small_tree 9 one)).
    vm_compute. discriminate.
  - apply (proj2 (genVal_overwrites _ (OcTreeBase_ctor Datatypes.unit one)
                    32768 one)).
    vm_compute. reflexivity.
Defined.

Section CodecOfBuiltTrees.
Context {A : Type}.
Variable t : OcTreeBase A.
Hypothesis Hmax : tree_max_val t = 32768.

(** With [tree_max_val = 32768] no [unsigned short] key is out of range
    for [genVal]. *)
Lemma genVal_total key val :
  0 <= key < 65536 -> fst (genVal t key val) = true.
Proof.
  intros Hk. unfold genVal. rewrite Hmax.
  change (uint_of (2 * 32768)) with 65536.
  destruct (65536 <=? key) eqn:E; [apply Z.leb_le in E; lia|reflexivity].
Qed.

Lemma genVal3_total k :
  0 <= nth3 k 0 < 65536 -> 0 <= nth3 k 1 < 65536 ->
  0 <= nth3 k 2 < 65536 -> genVal3 t k <> None.
Proof.
  intros H0 H1 H2. unfold genVal3.
  pose proof (genVal_total (nth3 k 0) zero H0) as G0.
  pose proof (genVal_total (nth3 k 1) zero H1) as G1.
  pose proof (genVal_total (nth3 k 2) zero H2) as G2.
  destruct (genVal t (nth3 k 0) zero) as [b0 v0].
  destruct (genVal t (nth3 k 1) zero) as [b1 v1].
  destruct (genVal t (nth3 k 2) zero) as [b2 v2].
  simpl in G0, G1, G2. subst. discriminate.
Qed.

End CodecOfBuiltTrees.

Lemma ctor_tree_max_val (A : Type) r :
  tree_max_val (OcTreeBase_ctor A r) = 32768 /\
  tree_depth (OcTreeBase_ctor A r) = 16.
Proof. split; reflexivity. Qed.

Lemma setResolution_tree_max_val (A : Type) (t : OcTreeBase A) r :
  tree_max_val (setResolution t r) = tree_max_val t /\
  tree_depth (setResolution t r) = tree_depth t.
Proof. split; reflexivity. Qed.

(** ** Rounding *)

Module Rounding.

Lemma digits2_pos_bounds p :
  2 ^ (Z.pos (digits2_pos p) - 1) <= Z.pos p < 2 ^ Z.pos (digits2_pos p).
Proof.
  induction p as [p IH|p IH|]; cbn [digits2_pos].
  - rewrite Pos2Z.inj_succ.
    replace (Z.succ (Z.pos (digits2_pos p)) - 1)
      with (Z.succ (Z.pos (digits2_pos p) - 1)) by lia.
    rewrite !Z.pow_succ_r by lia. lia.
  - rewrite Pos2Z.inj_succ.
    replace (Z.succ (Z.pos (digits2_pos p)) - 1)
      with (Z.succ (Z.pos (digits2_pos p) - 1)) by lia.
    rewrite !Z.pow_succ_r by lia. lia.
  - cbn. lia.
Qed.

Lemma digits2_pos_eq p d :
  2 ^ (d - 1) <= Z.pos p < 2 ^ d -> Z.pos (digits2_pos p) = d.
Proof.
  intros H. pose proof (digits2_pos_bounds p) as B.
  set (d' := Z.pos (digits2_pos p)) in *.
  assert (Hd' : 0 < d') by (unfold d'; lia).
  assert (Hd : 0 < d).
  { destruct (Z_lt_le_dec 0 d) as [|N]; [assumption|].
    rewrite (Z.pow_neg_r 2 (d - 1)) in H by lia.
    destruct (Z.eq_dec d 0) as [->|]; [cbn in H; lia|].
    rewrite (Z.pow_neg_r 2 d) in H by lia. lia. }
  destruct (Z.lt_trichotomy d' d) as [L|[E|G]]; [|assumption|].
  - assert (2 ^ d' <= 2 ^ (d - 1)) by (apply Z.pow_le_mono_r; lia). lia.
  - assert (2 ^ d <= 2 ^ (d' - 1)) by (apply Z.pow_le_mono_r; lia). lia.
Qed.

Lemma iter_pos_nat {X} (f : X -> X) p x :
  iter_pos f p x = Nat.iter (Pos.to_nat p) f x.
Proof.
  revert x. induction p as [p IH|p IH|]; intros x; cbn [iter_pos].
  - rewrite !IH, Pos2Nat.inj_xI.
    replace (S (2 * Pos.to_nat p)) with (Pos.to_nat p + S (Pos.to_nat p))%nat
      by lia.
    rewrite Nat.iter_add, Nat.iter_succ_r. reflexivity.
  - rewrite !IH, Pos2Nat.inj_xO.
    replace (2 * Pos.to_nat p)%nat with (Pos.to_nat p + Pos.to_nat p)%nat
      by lia.
    rewrite Nat.iter_add. reflexivity.
  - reflexivity.
Qed.

Lemma shr_1_inv N D k mrs :
  0 < D -> 0 <= k -> shr_inv N D k mrs -> shr_inv N D (k + 1) (shr_1 mrs).
Proof.
  intros HD Hk. unfold shr_inv. cbv zeta.
  rewrite Z.pow_add_r by lia. change (2 ^ 1) with 2.
  assert (HP : 0 < 2 ^ k * D) by (apply Z.mul_pos_pos; lia).
  set (P := 2 ^ k * D) in *.
  replace (2 ^ k * 2 * D) with (2 * P) by (unfold P; ring).
  destruct mrs as [m r s]. cbn [shr_m shr_r shr_s].
  intros (Hm & Hrest & Hr & Hs).
  assert (Hrs : orb r s = true <-> N - m * P <> 0).
  { destruct r, s; cbn [orb]; intuition (try discriminate; try lia). }
  destruct m as [|[p|p|]|p]; try lia; cbn [shr_1 shr_m shr_r shr_s].
  - (* 0 *)
    repeat split; try lia; try discriminate; intuition lia.
  - (* 2p+1 *)
    rewrite Pos2Z.inj_xI in *.
    set (X := Z.pos p * P) in *.
    replace ((2 * Z.pos p + 1) * P) with (2 * X + P) in * by (unfold X; ring).
    replace (Z.pos p * (2 * P)) with (2 * X) by (unfold X; ring).
    repeat split; try lia; intuition lia.
  - (* 2p *)
    rewrite Pos2Z.inj_xO in *.
    set (X := Z.pos p * P) in *.
    replace (2 * Z.pos p * P) with (2 * X) in * by (unfold X; ring).
    replace (Z.pos p * (2 * P)) with (2 * X) by (unfold X; ring).
    repeat split; try lia; try discriminate; intuition lia.
  - (* 1 *)
    replace (1 * P) with P in * by ring.
    repeat split; try lia; intuition lia.
Qed.

Lemma shr_iter_inv N D k n mrs :
  0 < D -> 0 <= k -> shr_inv N D k mrs ->
  shr_inv N D (k + Z.of_nat n) (Nat.iter n shr_1 mrs).
Proof.
  intros HD Hk H. induction n as [|n IH].
  - cbn [Nat.iter]. replace (k + Z.of_nat 0) with k by lia. exact H.
  - rewrite Nat.iter_succ.
    replace (k + Z.of_nat (S n)) with (k + Z.of_nat n + 1) by lia.
    apply shr_1_inv; [assumption|lia|exact IH].
Qed.

Lemma shr_inv_shr N D mrs e n :
  0 < D -> 0 <= n -> shr_inv N D 0 mrs ->
  shr_inv N D n (fst (shr mrs e n)) /\ snd (shr mrs e n) = e + n.
Proof.
  intros HD Hn H. unfold shr. destruct n as [|p|p]; try lia.
  - cbn [fst snd]. split; [exact H|lia].
  - cbn [fst snd]. split; [|reflexivity].
    rewrite iter_pos_nat.
    replace (Z.pos p) with (0 + Z.of_nat (Pos.to_nat p)) by lia.
    apply shr_iter_inv; [assumption|lia|exact H].
Qed.

(** Rounding to nearest, ties to even, moves by at most half a unit. *)
Lemma round_nearest_even_inv N D k mrs :
  0 < D -> 0 <= k -> shr_inv N D k mrs ->
  let mr := round_nearest_even (shr_m mrs) (loc_of_shr_record mrs) in
  (mr = shr_m mrs \/ mr = shr_m mrs + 1)
  /\ - (2 ^ k * D) <= 2 * (mr * (2 ^ k * D) - N) <= 2 ^ k * D.
Proof.
  intros HD Hk. unfold shr_inv. cbv zeta.
  assert (HP : 0 < 2 ^ k * D) by (apply Z.mul_pos_pos; lia).
  set (P := 2 ^ k * D) in *.
  destruct mrs as [m r s]. cbn [shr_m shr_r shr_s loc_of_shr_record].
  intros (Hm & Hrest & Hr & Hs).
  set (X := m * P) in *.
  destruct r, s; cbn [round_nearest_even].
  - (* above one half *)
    split; [right; reflexivity|].
    replace ((m + 1) * P) with (X + P) by (unfold X; ring).
    intuition lia.
  - (* one half *)
    assert (E : 2 * (N - X) = P).
    { destruct (Z.eq_dec (2 * (N - X)) P); [assumption|].
      assert (false = true) by (apply Hs; split; lia). discriminate. }
    destruct (Z.even m).
    + split; [left; reflexivity|]. fold X. lia.
    + split; [right; reflexivity|].
      replace ((m + 1) * P) with (X + P) by (unfold X; ring). lia.
  - (* below one half *)
    split; [left; reflexivity|]. fold X.
    assert (~ P <= 2 * (N - X)) by (intros G; apply Hr in G; discriminate).
    lia.
  - (* exact *)
    split; [left; reflexivity|]. fold X.
    assert (E : N - X = 0).
    { destruct (Z.eq_dec (N - X) 0); [assumption|].
      assert (~ P <= 2 * (N - X)) by (intros G; apply Hr in G; discriminate).
      assert (false = true) by (apply Hs; split; lia). discriminate. }
    lia.
Qed.


Lemma shr_m_of_loc m l : shr_m (shr_record_of_loc m l) = m.
Proof. destruct l as [|[| |]]; reflexivity. Qed.

Lemma fexp_normal x : -1074 <= x - 53 -> fexp prec emax x = x - 53.
Proof. intros H. unfold fexp, emin, prec, emax. lia. Qed.

(** [binary_round_aux] on a mantissa of [d >= 53] digits that stands for
    the fraction [N/D], away from underflow and overflow: the result is
    a normal double within half a unit of [N/D]. *)
Lemma binary_round_aux_inv s mx ex lx N D d :
  0 < D -> 0 < mx -> Zdigits2 mx = d -> 53 <= d ->
  -1074 <= ex + d - 53 -> ex + d <= 1023 ->
  shr_inv N D 0 (shr_record_of_loc mx lx) ->
  exists m' e',
    binary_round_aux prec emax s mx ex lx = S754_finite s m' e'
    /\ 2 ^ 52 <= Z.pos m' < 2 ^ 53
    /\ ex + d - 53 <= e' <= ex + d - 52
    /\ - (2 ^ (d - 53) * D)
       <= 2 * (Z.pos m' * 2 ^ (e' - ex) * D - N)
       <= 2 ^ (d - 53) * D.
Proof.
  intros HD Hmx Hdig Hd Hlo Hhi Hinv.
  unfold binary_round_aux, shr_fexp.
  rewrite Hdig, fexp_normal by lia.
  replace (d + ex - 53 - ex) with (d - 53) by lia.
  set (n := d - 53) in *. assert (Hn : 0 <= n) by (unfold n; lia).
  destruct (shr_inv_shr N D (shr_record_of_loc mx lx) ex n HD Hn Hinv)
    as [Hinv' He1].
  destruct (shr (shr_record_of_loc mx lx) ex n) as [mrs' e1].
  cbn [fst snd] in Hinv', He1. subst e1.
  pose proof (round_nearest_even_inv N D n mrs' HD Hn Hinv') as Hr.
  cbv zeta in Hr. destruct Hr as [Hmr Herr].
  set (mr := round_nearest_even (shr_m mrs') (loc_of_shr_record mrs')) in *.
  (* the shifted mantissa has 53 digits *)
  assert (HQ : 0 < 2 ^ n) by (apply Z.pow_pos_nonneg; lia).
  assert (Hm' : 2 ^ 52 <= shr_m mrs' < 2 ^ 53).
  { unfold shr_inv in Hinv, Hinv'. cbv zeta in Hinv, Hinv'.
    rewrite shr_m_of_loc in Hinv. change (2 ^ 0) with 1 in Hinv.
    destruct Hinv as (_ & Hx & _). destruct Hinv' as (_ & Hx' & _).
    assert (Hb : 2 ^ 52 * 2 ^ n <= mx < 2 ^ 53 * 2 ^ n).
    { destruct mx as [|p|p]; try lia. cbn [Zdigits2] in Hdig.
      pose proof (digits2_pos_bounds p) as B. rewrite Hdig in B.
      replace d with (53 + n) in B by (unfold n; lia).
      replace (53 + n - 1) with (52 + n) in B by lia.
      rewrite !Z.pow_add_r in B by lia. exact B. }
    set (Q := 2 ^ n) in *.
    split.
    - assert ((2 ^ 52 - 1) * (Q * D) < (shr_m mrs' + 1 - 1) * (Q * D)
              -> 2 ^ 52 - 1 < shr_m mrs' + 1 - 1)
        by (apply Z.mul_lt_mono_pos_r; apply Z.mul_pos_pos; lia).
      assert (2 ^ 52 * Q * D <= mx * D)
        by (apply Z.mul_le_mono_nonneg_r; lia).
      nia.
    - assert (shr_m mrs' * (Q * D) < 2 ^ 53 * (Q * D)
              -> shr_m mrs' < 2 ^ 53)
        by (apply Z.mul_lt_mono_pos_r; apply Z.mul_pos_pos; lia).
      assert ((mx + 1) * D <= 2 ^ 53 * Q * D)
        by (apply Z.mul_le_mono_nonneg_r; lia).
      nia. }
  destruct (Z.eq_dec mr (2 ^ 53)) as [Ecarry|Ncarry].
  - (* the rounding carries into a 54th digit *)
    rewrite Ecarry. change (Zdigits2 (2 ^ 53)) with 54.
    rewrite fexp_normal by lia.
    replace (54 + (ex + n) - 53 - (ex + n)) with 1 by lia.
    cbn [shr shr_record_of_loc iter_pos].
    change (shr_m (shr_1 {| shr_m := 2 ^ 53; shr_r := false; shr_s := false |}))
      with (Z.pos (2 ^ 52)).
    cbv iota beta.
    assert (Le : (ex + n + 1 <=? emax - prec) = true)
      by (apply Z.leb_le; unfold emax, prec, n; lia).
    rewrite Le. exists (2 ^ 52)%positive, (ex + n + 1).
    split; [reflexivity|]. split; [cbn; lia|]. split; [unfold n; lia|].
    replace (ex + n + 1 - ex) with (n + 1) by lia.
    rewrite Z.pow_add_r by lia. change (2 ^ 1) with 2.
    replace (Z.pos (2 ^ 52) * (2 ^ n * 2) * D) with (2 ^ 53 * (2 ^ n * D))
      by (change (Z.pos (2 ^ 52)) with (2 ^ 52); change (2 ^ 53) with (2 ^ 52 * 2); ring).
    rewrite <- Ecarry. exact Herr.
  - assert (Hmr' : 2 ^ 52 <= mr < 2 ^ 53) by lia.
    destruct mr as [|p|p] eqn:Emr; try lia.
    assert (Hdp : Zdigits2 (Z.pos p) = 53).
    { cbn [Zdigits2]. apply digits2_pos_eq. exact Hmr'. }
    rewrite Hdp, fexp_normal by lia.
    replace (53 + (ex + n) - 53 - (ex + n)) with 0 by lia.
    cbn [shr shr_record_of_loc shr_m].
    assert (Le : (ex + n <=? emax - prec) = true)
      by (apply Z.leb_le; unfold emax, prec, n; lia).
    rewrite Le. exists p, (ex + n).
    split; [reflexivity|]. split; [exact Hmr'|]. split; [unfold n; lia|].
    replace (ex + n - ex) with n by lia.
    replace (Z.pos p * 2 ^ n * D) with (Z.pos p * (2 ^ n * D)) by ring.
    exact Herr.
Qed.


Lemma shr_inv_exact mx : 0 <= mx -> shr_inv mx 1 0 (shr_record_of_loc mx loc_Exact).
Proof.
  intros H. unfold shr_inv. cbn [shr_record_of_loc shr_m shr_r shr_s].
  change (2 ^ 0 * 1) with 1. rewrite Z.mul_1_r, Z.sub_diag.
  repeat split; try lia; try discriminate.
Qed.

(** The product of two normal doubles, away from underflow and
    overflow. *)
Lemma dmul_normal sx mx ex sy my ey :
  2 ^ 52 <= Z.pos mx < 2 ^ 53 -> 2 ^ 52 <= Z.pos my < 2 ^ 53 ->
  -1126 <= ex + ey <= 917 ->
  exists m' e',
    dmul (S754_finite sx mx ex) (S754_finite sy my ey)
      = S754_finite (xorb sx sy) m' e'
    /\ 2 ^ 52 <= Z.pos m' < 2 ^ 53
    /\ ex + ey + 52 <= e' <= ex + ey + 54
    /\ - 2 ^ 53
       <= 2 * (Z.pos m' * 2 ^ (e' - (ex + ey)) - Z.pos mx * Z.pos my)
       <= 2 ^ 53.
Proof.
  intros Hx Hy He. unfold dmul, SFmul.
  assert (Hp : 2 ^ 104 <= Z.pos (mx * my) < 2 ^ 106).
  { rewrite Pos2Z.inj_mul. change (2 ^ 104) with (2 ^ 52 * 2 ^ 52).
    change (2 ^ 106) with (2 ^ 53 * 2 ^ 53). nia. }
  assert (Hd : Zdigits2 (Z.pos (mx * my)) = 105
               \/ Zdigits2 (Z.pos (mx * my)) = 106).
  { cbn [Zdigits2].
    destruct (Z_lt_le_dec (Z.pos (mx * my)) (2 ^ 105)).
    - left. apply digits2_pos_eq. change (105 - 1) with 104. lia.
    - right. apply digits2_pos_eq. change (106 - 1) with 105. lia. }
  set (d := Zdigits2 (Z.pos (mx * my))) in *.
  destruct (binary_round_aux_inv (xorb sx sy) (Z.pos (mx * my)) (ex + ey)
              loc_Exact (Z.pos (mx * my)) 1 d)
    as (m' & e' & E & Hm & He' & Herr);
    try lia; try reflexivity; [apply shr_inv_exact; lia|].
  exists m', e'. split; [exact E|]. split; [exact Hm|].
  split; [lia|].
  rewrite !Z.mul_1_r, Pos2Z.inj_mul in Herr.
  assert (2 ^ (d - 53) <= 2 ^ 53).
  { destruct Hd as [-> | ->]; cbn; lia. }
  lia.
Qed.

Lemma new_location_inv m q r :
  0 < m -> 0 <= q -> 0 <= r < m ->
  shr_inv (m * q + r) m 0 (shr_record_of_loc q (new_location m r)).
Proof.
  intros Hm Hq Hr. unfold shr_inv. cbv zeta.
  rewrite shr_m_of_loc. change (2 ^ 0 * m) with (1 * m). rewrite Z.mul_1_l.
  replace (m * q + r - q * m) with r by ring.
  split; [assumption|]. split; [assumption|].
  unfold new_location, new_location_even, new_location_odd.
  destruct (Z.even m) eqn:Ev.
  - destruct (Z.eqb_spec r 0) as [->|Nz]; cbn [shr_record_of_loc shr_r shr_s].
    + split; split; try discriminate; lia.
    + destruct (Z.compare_spec (2 * r) m);
        cbn [shr_record_of_loc shr_r shr_s]; split; split;
        try discriminate; try reflexivity; lia.
  - assert (Hodd : 2 * r <> m).
    { intros E. rewrite <- E, Z.even_mul in Ev. discriminate. }
    destruct (Z.eqb_spec r 0) as [->|Nz]; cbn [shr_record_of_loc shr_r shr_s].
    + split; split; try discriminate; lia.
    + destruct (Z.compare_spec (2 * r + 1) m);
        cbn [shr_record_of_loc shr_r shr_s]; split; split;
        try discriminate; try reflexivity; lia.
Qed.

(** The reciprocal of a normal double, away from underflow and
    overflow. *)
Lemma ddiv_one_normal m e :
  2 ^ 52 <= Z.pos m < 2 ^ 53 -> -1074 <= e <= 969 ->
  exists m' e',
    ddiv one (S754_finite false m e) = S754_finite false m' e'
    /\ 2 ^ 52 <= Z.pos m' < 2 ^ 53
    /\ -105 - e <= e' <= -105 - e + 2
    /\ - (2 * Z.pos m)
       <= 2 * (Z.pos m' * 2 ^ (e' + 105 + e) * Z.pos m - 2 ^ 105)
       <= 2 * Z.pos m.
Proof.
  intros Hm He.
  change one with (S754_finite false (2 ^ 52) (-52)).
  unfold ddiv, SFdiv, SFdiv_core_binary.
  change (Zdigits2 (Z.pos (2 ^ 52))) with 53.
  assert (Hdm : Zdigits2 (Z.pos m) = 53)
    by (cbn [Zdigits2]; apply digits2_pos_eq; exact Hm).
  rewrite Hdm.
  replace (53 + -52 - (53 + e)) with (-52 - e) by lia.
  rewrite fexp_normal by lia.
  replace (Z.min (-52 - e - 53) (-52 - e)) with (-105 - e) by lia.
  replace (-52 - e - (-105 - e)) with 53 by lia.
  change (Z.shiftl (Z.pos (2 ^ 52)) 53) with (2 ^ 105).
  pose proof (Z_div_mod (2 ^ 105) (Z.pos m) ltac:(lia)) as Hdiv.
  destruct (Z.div_eucl (2 ^ 105) (Z.pos m)) as [q r].
  destruct Hdiv as [Hq Hr].
  assert (Hqb : 2 ^ 52 <= q <= 2 ^ 53).
  { change (2 ^ 105) with (2 ^ 53 * 2 ^ 52) in Hq. split.
    - destruct (Z_lt_le_dec q (2 ^ 52)) as [L|]; [exfalso|assumption].
      assert (Z.pos m * (q + 1) <= Z.pos m * 2 ^ 52)
        by (apply Z.mul_le_mono_nonneg_l; lia).
      lia.
    - destruct (Z_lt_le_dec (2 ^ 53) q) as [L|]; [exfalso|assumption].
      assert (2 ^ 52 * (2 ^ 53 + 1) <= Z.pos m * q)
        by (apply Z.mul_le_mono_nonneg; lia).
      lia. }
  assert (Hd : Zdigits2 q = 53 \/ Zdigits2 q = 54).
  { destruct q as [|p|p]; try lia. cbn [Zdigits2].
    destruct (Z.eq_dec (Z.pos p) (2 ^ 53)) as [E|N].
    - right. apply digits2_pos_eq. rewrite E. cbn. lia.
    - left. apply digits2_pos_eq. change (53 - 1) with 52. lia. }
  set (d := Zdigits2 q) in *.
  destruct (binary_round_aux_inv (xorb false false) q (-105 - e)
              (new_location (Z.pos m) r) (2 ^ 105) (Z.pos m) d)
    as (m' & e' & E & Hm' & He' & Herr); try lia; try reflexivity.
  { rewrite Hq. apply new_location_inv; lia. }
  exists m', e'. split; [exact E|]. split; [exact Hm'|]. split; [lia|].
  replace (e' + 105 + e) with (e' - (-105 - e)) by lia.
  assert (2 ^ (d - 53) <= 2) by (destruct Hd as [-> | ->]; cbn; lia).
  nia.
Qed.

End Rounding.
Import Rounding.

Lemma mul_abs_bound a b A B :
  - A <= a <= A -> - B <= b <= B -> - (A * B) <= a * b <= A * B.
Proof.
  intros Ha Hb.
  assert (H : Z.abs (a * b) <= A * B).
  { rewrite Z.abs_mul. apply Z.mul_le_mono_nonneg; try apply Z.abs_nonneg;
      apply Z.abs_le; assumption. }
  apply Z.abs_le in H. exact H.
Qed.

(** The integer core of the round trip: the rounded product of the
    rounded reciprocal and the rounded centre stays within half a voxel of
    the centre. *)
Lemma round_trip_core n h m mc mf mv mp u w g E :
  1 <= n -> 37 <= h -> mc = n * 2 ^ h ->
  2 ^ 52 <= m < 2 ^ 53 -> 2 ^ 52 <= mc < 2 ^ 53 ->
  2 ^ 52 <= mf < 2 ^ 53 -> 2 ^ 52 <= mv < 2 ^ 53 ->
  0 <= u <= 2 -> 52 <= w <= 54 -> 52 <= g <= 54 ->
  E + g + u + w = 106 + h ->
  - (2 * m) <= 2 * (mf * 2 ^ u * m - 2 ^ 105) <= 2 * m ->
  - 2 ^ 53 <= 2 * (mv * 2 ^ w - mc * m) <= 2 ^ 53 ->
  - 2 ^ 53 <= 2 * (mp * 2 ^ g - mf * mv) <= 2 ^ 53 ->
  (n - 1) * 2 ^ E < 2 * mp < (n + 1) * 2 ^ E.
Proof.
  intros Hn Hh Hmc Hm Hmcb Hmf Hmv Hu Hw Hg HE H1 H2 H3.
  assert (HE0 : 0 <= E) by lia.
  set (Af := mf * 2 ^ u) in *.
  set (Bv := mv * 2 ^ w) in *.
  set (d1 := Af * m - 2 ^ 105) in *.
  set (d2 := Bv - mc * m) in *.
  set (d3 := mp * 2 ^ g - mf * mv) in *.
  set (T := 2 ^ g * (2 ^ u * 2 ^ w)).
  assert (HT : 0 < T).
  { unfold T. repeat apply Z.mul_pos_pos; apply Z.pow_pos_nonneg; lia. }
  assert (HET : 2 ^ E * T = 2 ^ 106 * 2 ^ h).
  { unfold T. rewrite <- !Z.pow_add_r by lia. f_equal. lia. }
  assert (Huw : 0 < 2 ^ u * 2 ^ w <= 2 ^ 56).
  { rewrite <- Z.pow_add_r by lia. split.
    - apply Z.pow_pos_nonneg; lia.
    - apply Z.pow_le_mono_r; lia. }
  assert (HAf : 0 <= Af <= 2 ^ 55).
  { unfold Af. assert (0 < 2 ^ u <= 2 ^ 2).
    { split; [apply Z.pow_pos_nonneg; lia|apply Z.pow_le_mono_r; lia]. }
    change (2 ^ 55) with (2 ^ 53 * 2 ^ 2). split; [nia|].
    apply Z.mul_le_mono_nonneg; lia. }
  (* 2 * mp * T = n * 2^(106+h) + 2 * (mc*d1 + Af*d2 + d3 * 2^(u+w)) *)
  assert (Hid : mp * T = 2 ^ 105 * mc + (mc * d1 + Af * d2 + d3 * (2 ^ u * 2 ^ w))).
  { unfold T, d1, d2, d3, Af, Bv. ring. }
  assert (B1 : - (2 ^ 53 * 2 ^ 53) <= mc * d1 <= 2 ^ 53 * 2 ^ 53)
    by (apply mul_abs_bound; lia).
  assert (B2 : - (2 ^ 55 * 2 ^ 52) <= Af * d2 <= 2 ^ 55 * 2 ^ 52)
    by (apply mul_abs_bound; lia).
  assert (B3 : - (2 ^ 52 * 2 ^ 56) <= d3 * (2 ^ u * 2 ^ w) <= 2 ^ 52 * 2 ^ 56)
    by (apply mul_abs_bound; lia).
  assert (Hh' : 2 ^ 37 <= 2 ^ h) by (apply Z.pow_le_mono_r; lia).
  assert (Hn2 : 2 * (2 ^ 105 * mc) = n * (2 ^ 106 * 2 ^ h)).
  { rewrite Hmc. change (2 ^ 106) with (2 * 2 ^ 105). ring. }
  assert (Hgoal : (n - 1) * (2 ^ E * T) < 2 * mp * T < (n + 1) * (2 ^ E * T)).
  { rewrite HET.
    replace (2 * mp * T) with (2 * (mp * T)) by ring. rewrite Hid.
    set (err := mc * d1 + Af * d2 + d3 * (2 ^ u * 2 ^ w)) in *.
    assert (- 2 ^ 110 <= err <= 2 ^ 110).
    { unfold err.
      change (2 ^ 53 * 2 ^ 53) with (1 * 2 ^ 106) in B1.
      change (2 ^ 55 * 2 ^ 52) with (2 * 2 ^ 106) in B2.
      change (2 ^ 52 * 2 ^ 56) with (4 * 2 ^ 106) in B3.
      change (2 ^ 110) with (16 * 2 ^ 106).
      lia. }
    assert (2 ^ 112 < 2 ^ 106 * 2 ^ h).
    { change (2 ^ 112) with (2 ^ 106 * 2 ^ 6).
      assert (2 ^ 6 < 2 ^ h).
      { apply Z.lt_le_trans with (2 ^ 37); [reflexivity|assumption]. }
      apply Z.mul_lt_mono_pos_l; [reflexivity|assumption]. }
    replace (2 * (2 ^ 105 * mc + err)) with (n * (2 ^ 106 * 2 ^ h) + 2 * err)
      by (rewrite <- Hn2; ring).
    change (2 ^ 112) with (4 * 2 ^ 110) in *.
    set (W := 2 ^ 106 * 2 ^ h) in *.
    replace ((n - 1) * W) with (n * W - W) by ring.
    replace ((n + 1) * W) with (n * W + W) by ring.
    lia. }
  assert (HP : 0 < 2 ^ E) by (apply Z.pow_pos_nonneg; lia).
  destruct Hgoal as [G1 G2]. split.
  - apply (Z.mul_lt_mono_pos_r T); [assumption|].
    replace ((n - 1) * 2 ^ E * T) with ((n - 1) * (2 ^ E * T)) by ring.
    exact G1.
  - apply (Z.mul_lt_mono_pos_r T); [assumption|].
    replace ((n + 1) * 2 ^ E * T) with ((n + 1) * (2 ^ E * T)) by ring.
    exact G2.
Qed.

Lemma all_below_spec bits P :
  forall base, all_below bits base P = true ->
  forall k, base * 2 ^ Z.of_nat bits <= k < (base + 1) * 2 ^ Z.of_nat bits ->
            P k = true.
Proof.
  induction bits as [|b IH]; intros base H k Hk.
  - cbn in Hk. cbn in H. replace k with base by lia. exact H.
  - cbn [all_below] in H. apply andb_prop in H. destruct H as [H0 H1].
    rewrite Nat2Z.inj_succ, Z.pow_succ_r in Hk by lia.
    destruct (Z_lt_le_dec k ((2 * base + 1) * 2 ^ Z.of_nat b)).
    + apply (IH _ H0). lia.
    + apply (IH _ H1). lia.
Qed.

Lemma center_check_all : all_below 16 0 center_check = true.
Proof. vm_compute. reflexivity. Qed.

Lemma center_exact k :
  0 <= k < 65536 ->
  exists mc ec,
    dadd (dsub (of_Z k) (of_Z 32768)) half = S754_finite (k <? 32768) mc ec
    /\ 2 ^ 52 <= Z.pos mc < 2 ^ 53 /\ -53 <= ec <= -38
    /\ Z.pos mc = Z.abs (2 * k - 65535) * 2 ^ (- ec - 1).
Proof.
  intros Hk.
  pose proof (all_below_spec 16 center_check 0 center_check_all k) as H.
  change (0 * 2 ^ Z.of_nat 16) with 0 in H.
  change ((0 + 1) * 2 ^ Z.of_nat 16) with 65536 in H.
  specialize (H Hk). unfold center_check in H.
  destruct (dadd (dsub (of_Z k) (of_Z 32768)) half) as [| | |s mc ec];
    try discriminate.
  repeat (apply andb_prop in H; let H' := fresh in destruct H as [H H']).
  exists mc, ec.
  apply Bool.eqb_prop in H. subst s.
  split; [reflexivity|].
  repeat match goal with
         | X : (_ <=? _) = true |- _ => apply Z.leb_le in X
         | X : (_ <? _) = true |- _ => apply Z.ltb_lt in X
         | X : (_ =? _) = true |- _ => apply Z.eqb_eq in X
         end.
  repeat split; assumption.
Qed.

Lemma div_floor_unique v q P : 0 < P -> q * P <= v < (q + 1) * P -> v / P = q.
Proof.
  intros HP H. symmetry. apply (Z.div_unique v P q (v - q * P)); lia.
Qed.

Section RoundTrip.
Context {A : Type}.
Variable t : OcTreeBase A.
Hypothesis Hmax : tree_max_val t = 32768.
Hypothesis Hrf : resolution_factor t = ddiv one (resolution t).
Hypothesis Hres : resolution_ok (resolution t).

Lemma round_trip_floor k val :
  0 <= k < 65536 ->
  Zfloor (dmul (resolution_factor t) (snd (genVal t k val)))
    = Some (k - 32768).
Proof.
  intros Hk. unfold genVal. rewrite Hmax, Hrf.
  change (uint_of (2 * 32768)) with 65536.
  destruct (65536 <=? k) eqn:Ek; [apply Z.leb_le in Ek; lia|].
  cbn [snd]. unfold resolution_ok in Hres.
  destruct (resolution t) as [| | |[|] m e]; try contradiction.
  destruct Hres as [Hm He].
  destruct (center_exact k Hk) as (mc & ec & -> & Hmc & Hec & Hval).
  set (sc := k <? 32768) in *.
  destruct (dmul_normal sc mc ec false m e Hmc Hm ltac:(lia))
    as (mv & ev & -> & Hmv & Hev & Herrv).
  destruct (ddiv_one_normal m e Hm ltac:(lia))
    as (mf & ef & -> & Hmf & Hef & Herrf).
  destruct (dmul_normal false mf ef (xorb sc false) mv ev Hmf Hmv ltac:(lia))
    as (mp & ep & -> & Hmp & Hep & Herrp).
  rewrite xorb_false_r. cbn [xorb Zfloor].
  assert (Eneg : (0 <=? ep) = false) by (apply Z.leb_gt; lia).
  rewrite Eneg. f_equal.
  set (n := Z.abs (2 * k - 65535)) in *.
  assert (Hn : 1 <= n) by (unfold n; lia).
  pose proof (round_trip_core n (- ec - 1) (Z.pos m) (Z.pos mc) (Z.pos mf)
                (Z.pos mv) (Z.pos mp) (ef + 105 + e) (ev - (ec + e))
                (ep - (ef + ev)) (- ep)
                Hn ltac:(lia) Hval Hm Hmc Hmf Hmv ltac:(lia) ltac:(lia)
                ltac:(lia) ltac:(lia) Herrf Herrv Herrp) as [G1 G2].
  assert (HP : 0 < 2 ^ (- ep)) by (apply Z.pow_pos_nonneg; lia).
  apply div_floor_unique; [exact HP|].
  unfold sc. destruct (Z.ltb_spec k 32768) as [L|L]; cbn [cond_Zopp].
  - (* below the centre of the key space *)
    assert (En : n = 65535 - 2 * k) by (unfold n; lia).
    rewrite En in G1, G2.
    replace (65535 - 2 * k - 1) with (- (2 * (k - 32768 + 1))) in G1 by lia.
    replace (65535 - 2 * k + 1) with (- (2 * (k - 32768))) in G2 by lia.
    replace (k - 32768 + 1) with (k - 32768 + 1) by lia.
    set (q := k - 32768) in *. set (P := 2 ^ (- ep)) in *.
    replace (- (2 * (q + 1)) * P) with (- (2 * ((q + 1) * P))) in G1 by ring.
    replace (- (2 * q) * P) with (- (2 * (q * P))) in G2 by ring.
    lia.
  - assert (En : n = 2 * k - 65535) by (unfold n; lia).
    rewrite En in G1, G2.
    replace (2 * k - 65535 - 1) with (2 * (k - 32768)) in G1 by lia.
    replace (2 * k - 65535 + 1) with (2 * (k - 32768 + 1)) in G2 by lia.
    set (q := k - 32768) in *. set (P := 2 ^ (- ep)) in *.
    replace (2 * q * P) with (2 * (q * P)) in G1 by ring.
    replace (2 * (q + 1) * P) with (2 * ((q + 1) * P)) in G2 by ring.
    lia.
Qed.

End RoundTrip.

(** C1 (codec round trip), as the code has it.  In a tree as the
    constructor and [setResolution] leave it ([tree_max_val = 32768],
    [resolution_factor = 1/resolution]) whose resolution is a normal double
    with [2^-1021 <= resolution < 2^1008], every key [0 < key < 65536]
    decodes with [genVal] to a value that [genKey] encodes back to the
    same key. *)
Theorem genVal_genKey_round_trip (A : Type) (t : OcTreeBase A) (key : Z)
    (val : double) :
  tree_max_val t = 32768 ->
  resolution_factor t = ddiv one (resolution t) ->
  resolution_ok (resolution t) ->
  0 < key < 65536 ->
  fst (genVal t key val) = true
  /\ genKey t (snd (genVal t key val)) = Some key.
Proof.
  intros Hmax Hrf Hres Hk. split.
  - apply genVal_total; [exact Hmax|lia].
  - rewrite genKey_eq by (rewrite Hmax; lia).
    rewrite (round_trip_floor t Hmax Hrf Hres key val) by lia.
    rewrite Hmax. cbv zeta.
    replace (key - 32768 + 32768) with key by lia.
    assert (E1 : (0 <? key) = true) by (apply Z.ltb_lt; lia).
    assert (E2 : (key <? 2 * 32768) = true) by (apply Z.ltb_lt; lia).
    rewrite E1, E2. reflexivity.
Qed.

Lemma genVal_genKey_round_trip_witness :
  let t := OcTreeBase_ctor Datatypes.unit (ddiv one (of_Z 10)) in
  fst (genVal t 12345 zero) = true
  /\ genKey t (snd (genVal t 12345 zero)) = Some 12345.
Proof.
  intros t.
  apply (genVal_genKey_round_trip Datatypes.unit t 12345 zero).
  - reflexivity.
  - reflexivity.
  - vm_compute. repeat split; discriminate.
  - split; reflexivity.
Defined.

(** C1 (codec round trip), as the claim states it, fails.  At resolution
    2^1010 the centres of the keys 65534 and 65535 both overflow to
    [+inf]: [genVal] returns the same value for the two keys, which no
    encoding can send back to both of them, and [genKey] fails on it. *)
Lemma genVal_genKey_overflow :
  let t := OcTreeBase_ctor Datatypes.unit (pow2 1010) in
  resolution t = S754_finite false (2 ^ 52) 958
  /\ genVal t 65534 zero = (true, S754_infinity false)
  /\ genVal t 65535 zero = (true, S754_infinity false)
  /\ genKey t (snd (genVal t 65535 zero)) = None.
Proof. vm_compute. repeat split; reflexivity. Qed.

(** ** The ray traversal *)

Section RayFacts.
Context {A : Type}.
Variable t : OcTreeBase A.

Lemma genKeys_inv p k :
  genKeys t p = Some k ->
  genKey t (coord p 0) = Some (nth3 k 0)
  /\ genKey t (coord p 1) = Some (nth3 k 1)
  /\ genKey t (coord p 2) = Some (nth3 k 2).
Proof.
  unfold genKeys.
  destruct (genKey t (coord p 0)) as [k0|]; [|discriminate].
  destruct (genKey t (coord p 1)) as [k1|]; [|discriminate].
  destruct (genKey t (coord p 2)) as [k2|]; [|discriminate].
  intros [= <-]. repeat split.
Qed.

(** The initialisation of an axis fails only on the codec. *)
Lemma init_axis_ok origin end_ direction i ko ke :
  genKey t (coord origin i) = Some ko ->
  genKey t (coord end_ i) = Some ke ->
  exists a, init_axis t origin end_ direction i = inr a
            /\ a_voxelIdx a = ko /\ a_endIdx a = ke.
Proof.
  intros Ho He. unfold init_axis. rewrite Ho, He.
  destruct (dne (coord direction i) zero); eexists; repeat split.
Qed.

Lemma init_axis_inv origin end_ direction i a :
  init_axis t origin end_ direction i = inr a ->
  genKey t (coord origin i) = Some (a_voxelIdx a)
  /\ genKey t (coord end_ i) = Some (a_endIdx a).
Proof.
  unfold init_axis.
  destruct (genKey t (coord origin i)) as [ko|]; [|discriminate].
  destruct (genKey t (coord end_ i)) as [ke|]; [|discriminate].
  destruct (dne (coord direction i) zero); intros [= <-]; split; reflexivity.
Qed.

End RayFacts.

(** C9 (degenerate ray).  When origin and end encode to the same voxel
    index on all three axes, in particular when they are the same point,
    [computeRay] returns [true] and leaves [_ray] empty, whatever it held
    before and without entering the loop. *)
Theorem computeRay_same_cell (A : Type) (t : OcTreeBase A) (fuel : nat)
    (origin end_ : point3d) (ray0 : list point3d) (k : arr3 Z) :
  genKeys t origin = Some k ->
  genKeys t end_ = Some k ->
  computeRay t fuel origin end_ ray0 = Some (RayTrue, []).
Proof.
  intros Ho He.
  apply genKeys_inv in Ho. destruct Ho as (O0 & O1 & O2).
  apply genKeys_inv in He. destruct He as (E0 & E1 & E2).
  unfold computeRay.
  destruct (init_axis_ok t origin end_ (unit (p_sub end_ origin)) 0 _ _ O0 E0)
    as (a0 & -> & V0 & W0).
  destruct (init_axis_ok t origin end_ (unit (p_sub end_ origin)) 1 _ _ O1 E1)
    as (a1 & -> & V1 & W1).
  destruct (init_axis_ok t origin end_ (unit (p_sub end_ origin)) 2 _ _ O2 E2)
    as (a2 & -> & V2 & W2).
  cbn [nth3]. rewrite V0, V1, V2, W0, W1, W2, !Z.eqb_refl. reflexivity.
Qed.

Lemma computeRay_same_cell_witness :
  let t := OcTreeBase_ctor Datatypes.unit one in
  let p := P3 half (of_Z 3) (dyadic (-5) (-2)) in
  computeRay t 0 p p [p; p] = Some (RayTrue, []).
Proof.
  intros t p.
  apply (computeRay_same_cell _ t 0 p p [p; p] (32768, 32771, 32766));
    vm_compute; reflexivity.
Defined.

Lemma ushort3_upd3 k i z : ushort3 k -> ushort3 (upd3 k i (ushort_of z)).
Proof.
  destruct k as [[k0 k1] k2]. unfold ushort3. cbn [nth3]. intros (H0 & H1 & H2).
  pose proof (ushort_of_range z).
  destruct i as [|[|i]]; cbn [upd3 nth3]; repeat split; lia.
Qed.

Lemma nth3_upd3_same {B} (k : arr3 B) i v : nth3 (upd3 k i v) i = v.
Proof. destruct k as [[k0 k1] k2]. destruct i as [|[|i]]; reflexivity. Qed.

Section RayOfBuiltTrees.
Context {A : Type}.
Variable t : OcTreeBase A.
Hypothesis Hmax : tree_max_val t = 32768.

(** With [unsigned short] indices and [2*tree_max_val = 65536] the
    boundary test of the loop body holds whatever the index was. *)
Lemma boundary_test_true k i z :
  let k' := upd3 k i (ushort_of z) in
  (0 <=? nth3 k' i) && (nth3 k' i <? uint_of (2 * tree_max_val t)) = true.
Proof.
  cbv zeta. rewrite nth3_upd3_same, Hmax.
  change (uint_of (2 * 32768)) with 65536.
  pose proof (ushort_of_range z).
  apply andb_true_intro. split; [apply Z.leb_le|apply Z.ltb_lt]; lia.
Qed.

(** An iteration never returns [false], and it keeps the indices in the
    range of [unsigned short]. *)
Lemma ray_iter_built origin maxLength step tDelta s :
  ushort3 (voxelIdx s) ->
  match ray_iter t origin maxLength step tDelta s with
  | inl s' => ushort3 (voxelIdx s')
              /\ exists value, _ray s' = _ray s ++ [value]
                 /\ dgt (norm2 (p_sub value origin)) maxLength = false
  | inr (status, ray) => status = RayTrue /\ ray = _ray s
  end.
Proof.
  intros Hk. unfold ray_iter.
  rewrite boundary_test_true.
  pose proof (ushort3_upd3 (voxelIdx s) (min_tMax (tMax s))
                (nth3 (voxelIdx s) (min_tMax (tMax s))
                 + nth3 step (min_tMax (tMax s))) Hk) as Hk'.
  destruct Hk' as (H0 & H1 & H2).
  pose proof (genVal3_total t Hmax _ H0 H1 H2) as Hv.
  destruct (genVal3 t _) as [value|]; [|congruence].
  destruct (dgt (norm2 (p_sub value origin)) maxLength) eqn:E.
  - split; reflexivity.
  - cbn [voxelIdx _ray]. split; [exact (conj H0 (conj H1 H2))|].
    exists value. split; [reflexivity|assumption].
Qed.

Lemma computeRay_loop_built fuel origin maxLength step tDelta s status ray :
  ushort3 (voxelIdx s) ->
  computeRay_loop t fuel origin maxLength step tDelta s
    = Some (status, ray) ->
  status = RayTrue
  /\ exists new, ray = _ray s ++ new
     /\ Forall (fun p => dgt (norm2 (p_sub p origin)) maxLength = false) new.
Proof.
  revert s. induction fuel as [|fuel IH]; intros s Hk; [discriminate|].
  cbn [computeRay_loop].
  pose proof (ray_iter_built origin maxLength step tDelta s Hk) as Hi.
  destruct (ray_iter t origin maxLength step tDelta s) as [s'|[st r]].
  - destruct Hi as (Hk' & value & Hr & Hd). intros Hl.
    destruct (IH s' Hk' Hl) as (-> & new & -> & Hnew).
    split; [reflexivity|]. exists (value :: new). rewrite Hr, <- app_assoc.
    split; [reflexivity|]. constructor; assumption.
  - destruct Hi as (-> & ->). intros [= <- <-].
    split; [reflexivity|]. exists []. rewrite app_nil_r. split; constructor.
Qed.

(** The shape of every result of [computeRay]: a failure comes from the
    codec during initialisation and leaves [_ray] empty. *)
Lemma computeRay_built fuel origin end_ ray0 status ray :
  computeRay t fuel origin end_ ray0 = Some (status, ray) ->
  match status with
  | RayTrue =>
      Forall (fun p => dgt (norm2 (p_sub p origin))
                         (norm2 (p_sub end_ origin)) = false) ray
  | RayFalse (OriginOutOfBounds i) =>
      ray = [] /\ genKey t (coord origin i) = None
  | RayFalse (EndOutOfBounds i) =>
      ray = [] /\ genKey t (coord end_ i) = None
  | RayFalse _ => False
  end.
Proof.
  unfold computeRay.
  set (direction := unit (p_sub end_ origin)).
  assert (Hinit : forall i e,
             init_axis t origin end_ direction i = inl e ->
             (e = OriginOutOfBounds i /\ genKey t (coord origin i) = None)
             \/ (e = EndOutOfBounds i /\ genKey t (coord end_ i) = None)).
  { intros i e. unfold init_axis.
    destruct (genKey t (coord origin i)) as [ko|].
    - destruct (genKey t (coord end_ i)) as [ke|].
      + destruct (dne (coord direction i) zero); discriminate.
      + intros [= <-]. right. split; reflexivity.
    - intros [= <-]. left. split; reflexivity. }
  assert (Hfail : forall i e,
             init_axis t origin end_ direction i = inl e ->
             Some (RayFalse e, @nil point3d) = Some (status, ray) ->
             match status with
             | RayTrue =>
                 Forall (fun p => dgt (norm2 (p_sub p origin))
                                    (norm2 (p_sub end_ origin)) = false) ray
             | RayFalse (OriginOutOfBounds i) =>
                 ray = [] /\ genKey t (coord origin i) = None
             | RayFalse (EndOutOfBounds i) =>
                 ray = [] /\ genKey t (coord end_ i) = None
             | RayFalse _ => False
             end).
  { intros i e Hi [= <- <-].
    destruct (Hinit i e Hi) as [[-> Hg]|[-> Hg]]; split; auto. }
  destruct (init_axis t origin end_ direction 0) as [e0|a0] eqn:I0;
    [apply (Hfail _ _ I0)|].
  destruct (init_axis t origin end_ direction 1) as [e1|a1] eqn:I1;
    [apply (Hfail _ _ I1)|].
  destruct (init_axis t origin end_ direction 2) as [e2|a2] eqn:I2;
    [apply (Hfail _ _ I2)|].
  destruct (_ && _).
  - intros [= <- <-]. constructor.
  - intros Hl. apply computeRay_loop_built in Hl.
    + destruct Hl as (-> & new & -> & Hnew). exact Hnew.
    + apply init_axis_inv in I0, I1, I2.
      destruct I0 as [I0 _], I1 as [I1 _], I2 as [I2 _].
      apply genKey_ushort in I0, I1, I2.
      cbn [voxelIdx]. unfold ushort3. cbn [nth3]. auto.
Qed.

End RayOfBuiltTrees.

(** *** What a failing call hands back *)

Section RayMore.
Context {A : Type}.
Variable t : OcTreeBase A.

Lemma genKeys_axis_none p i :
  genKey t (coord p i) = None -> genKeys t p = None.
Proof.
  unfold genKeys. intros E.
  destruct i as [|[|i]]; cbn [coord] in E.
  - change (coord p 0) with (px p). rewrite E. reflexivity.
  - change (coord p 0) with (px p). change (coord p 1) with (py p).
    destruct (genKey t (px p)); [rewrite E|]; reflexivity.
  - change (coord p 0) with (px p). change (coord p 1) with (py p).
    change (coord p 2) with (pz p).
    destruct (genKey t (px p)); [|reflexivity].
    destruct (genKey t (py p)); [rewrite E|]; reflexivity.
Qed.

Lemma genKeys_of_axes p k0 k1 k2 :
  genKey t (coord p 0) = Some k0 -> genKey t (coord p 1) = Some k1 ->
  genKey t (coord p 2) = Some k2 -> genKeys t p = Some (k0, k1, k2).
Proof. unfold genKeys. intros -> -> ->. reflexivity. Qed.

Lemma min_tMax_lt3 tM : (min_tMax tM < 3)%nat.
Proof.
  unfold min_tMax.
  destruct (dlt _ _); destruct (dlt _ _); lia.
Qed.

Lemma init_axis_step origin end_ direction i a :
  init_axis t origin end_ direction i = inr a ->
  a_step a = -1 \/ a_step a = 0 \/ a_step a = 1.
Proof.
  unfold init_axis.
  destruct (genKey t (coord origin i)) as [ko|]; [|discriminate].
  destruct (genKey t (coord end_ i)) as [ke|]; [|discriminate].
  destruct (dne (coord direction i) zero); intros [= <-]; cbn [a_step];
    destruct (dgt (coord direction i) zero);
    destruct (dlt (coord direction i) zero); lia.
Qed.

(** What an iteration that goes on has done. *)
Lemma ray_iter_inl origin maxLength step tDelta s s' :
  ray_iter t origin maxLength step tDelta s = inl s' ->
  voxelIdx s' = advance step (voxelIdx s) (min_tMax (tMax s))
  /\ exists value,
       genVal3 t (voxelIdx s') = Some value
       /\ _ray s' = _ray s ++ [value].
Proof.
  unfold ray_iter. fold (advance step (voxelIdx s) (min_tMax (tMax s))).
  destruct (_ && _); [|discriminate].
  destruct (genVal3 t _) as [value|] eqn:G; [|discriminate].
  destruct (dgt _ _); [discriminate|].
  intros [= <-]. cbn [voxelIdx _ray]. split; [reflexivity|].
  exists value. split; [exact G|reflexivity].
Qed.

Lemma ray_iter_inr origin maxLength step tDelta s status ray :
  ray_iter t origin maxLength step tDelta s = inr (status, ray) ->
  ray = _ray s.
Proof.
  unfold ray_iter.
  destruct (_ && _); [|intros [= _ <-]; reflexivity].
  destruct (genVal3 t _) as [value|]; [|intros [= _ <-]; reflexivity].
  destruct (dgt _ _); [intros [= _ <-]; reflexivity|discriminate].
Qed.

Lemma computeRay_loop_stepwise fuel origin maxLength step tDelta :
  forall s status ray,
    computeRay_loop t fuel origin maxLength step tDelta s
      = Some (status, ray) ->
    exists ks pts,
      ray = _ray s ++ pts
      /\ stepwise step (voxelIdx s) ks
      /\ map (genVal3 t) ks = map Some pts.
Proof.
  induction fuel as [|fuel IH]; intros s status ray; [discriminate|].
  cbn [computeRay_loop].
  destruct (ray_iter t origin maxLength step tDelta s) as [s'|[st r]] eqn:E.
  - intros Hl. apply ray_iter_inl in E.
    destruct E as (Ek & value & Ev & Er).
    destruct (IH s' status ray Hl) as (ks & pts & -> & Hs & Hm).
    exists (voxelIdx s' :: ks), (value :: pts).
    rewrite Er, <- app_assoc. split; [reflexivity|]. split.
    + cbn [stepwise]. split; [|exact Hs].
      exists (min_tMax (tMax s)). split; [apply min_tMax_lt3|exact Ek].
    + cbn [map]. rewrite Ev, Hm. reflexivity.
  - intros [= <- <-]. apply ray_iter_inr in E. subst r.
    exists [], []. rewrite app_nil_r. repeat split.
Qed.

End RayMore.

(** The points handed back are the centres of a chain of voxels. *)
Lemma computeRay_chain (A : Type) (t : OcTreeBase A) (fuel : nat)
    (origin end_ : point3d) (ray0 ray : list point3d)
    (status : ray_status) (k0 : arr3 Z) :
  genKeys t origin = Some k0 ->
  computeRay t fuel origin end_ ray0 = Some (status, ray) ->
  exists step ks,
    (forall i, (i < 3)%nat ->
       nth3 step i = -1 \/ nth3 step i = 0 \/ nth3 step i = 1)
    /\ stepwise step k0 ks
    /\ map (genVal3 t) ks = map Some ray.
Proof.
  intros Hk Hc.
  assert (Hnil : forall r, Some (status, ray) = Some (status, r) -> r = [] ->
            exists step ks,
              (forall i, (i < 3)%nat ->
                 nth3 step i = -1 \/ nth3 step i = 0 \/ nth3 step i = 1)
              /\ stepwise step k0 ks
              /\ map (genVal3 t) ks = map Some ray).
  { intros r [= <-] ->. exists (0, 0, 0), []. split; [|split; reflexivity].
    intros i Hi. destruct i as [|[|i]]; cbn; lia. }
  unfold computeRay in Hc.
  destruct (init_axis t origin end_ (unit (p_sub end_ origin)) 0)
    as [e0|a0] eqn:I0;
    [injection Hc as <- <-; apply (Hnil []); reflexivity|].
  destruct (init_axis t origin end_ (unit (p_sub end_ origin)) 1)
    as [e1|a1] eqn:I1;
    [injection Hc as <- <-; apply (Hnil []); reflexivity|].
  destruct (init_axis t origin end_ (unit (p_sub end_ origin)) 2)
    as [e2|a2] eqn:I2;
    [injection Hc as <- <-; apply (Hnil []); reflexivity|].
  destruct (_ && _);
    [injection Hc as <- <-; apply (Hnil []); reflexivity|].
  apply computeRay_loop_stepwise in Hc.
  destruct Hc as (ks & pts & -> & Hs & Hm). cbn [_ray voxelIdx app] in *.
  exists (a_step a0, a_step a1, a_step a2), ks. split; [|split].
  - intros i Hi. destruct i as [|[|[|i]]]; try lia; cbn [nth3];
      eapply init_axis_step; eassumption.
  - apply genKeys_inv in Hk. destruct Hk as (K0 & K1 & K2).
    apply init_axis_inv in I0, I1, I2.
    destruct I0 as [O0 _], I1 as [O1 _], I2 as [O2 _].
    rewrite K0 in O0. rewrite K1 in O1. rewrite K2 in O2.
    injection O0 as O0. injection O1 as O1. injection O2 as O2.
    destruct k0 as [[x y] z]. cbn [nth3] in O0, O1, O2. subst x y z.
    exact Hs.
  - exact Hm.
Qed.

Section RayFailure.
Context {A : Type}.
Variable t : OcTreeBase A.







End RayFailure.




(** C3 (ray boundary failure), at a failing input.  Resolution 1.0,
    origin (32766.5, 0.5, 0.5), end (32767.75, 0.5, 0.5).  The
    initialisation gives the indices (65534, 32768, 32768), the steps
    (1, 0, 0) and [tMax = (0.5, 1e6, 1e6)].  The first iteration moves the
    x index from 65534 to 65535 and appends the point (32767.5, 0.5, 0.5).
    The second iteration selects axis 0 again and advances the index by
    +1, to 65536 = 2*tree_max_val, outside the key space; the [unsigned
    short] index wraps to 0, the boundary test passes, and the call
    returns [true] with the point appended so far. *)
Lemma computeRay_boundary_wraps :
  let t := OcTreeBase_ctor Datatypes.unit one in
  let origin := P3 (dyadic 65533 (-1)) half half in
  let end_ := P3 (dyadic 131071 (-2)) half half in
  let direction := unit (p_sub end_ origin) in
  let maxLength := norm2 (p_sub end_ origin) in
  let step := (1, 0, 0) in
  let tDelta := (one, sentinel, sentinel) in
  let s0 := RayState (65534, 32768, 32768) (half, sentinel, sentinel) [] in
  let s1 := RayState (65535, 32768, 32768) (dyadic 3 (-1), sentinel, sentinel)
              [P3 (dyadic 65535 (-1)) half half] in
  init_axis t origin end_ direction 0 = inr (AxisInit 65534 65535 1 half one)
  /\ init_axis t origin end_ direction 1
     = inr (AxisInit 32768 32768 0 sentinel sentinel)
  /\ init_axis t origin end_ direction 2
     = inr (AxisInit 32768 32768 0 sentinel sentinel)
  /\ ray_iter t origin maxLength step tDelta s0 = inl s1
  /\ nth3 (voxelIdx s1) (min_tMax (tMax s1)) + nth3 step (min_tMax (tMax s1))
     = 2 * tree_max_val t
  /\ ray_iter t origin maxLength step tDelta s1
     = inr (RayTrue, [P3 (dyadic 65535 (-1)) half half])
  /\ computeRay t 2 origin end_ []
     = Some (RayTrue, [P3 (dyadic 65535 (-1)) half half]).
Proof. vm_compute. repeat split; reflexivity. Qed.

(** C7 (ray monotonicity), at a failing input.  Resolution 2^20, origin at
    the centre of voxel (32768, 32768, 32768), end two voxels further along
    x.  After the first step [tMax[0]] exceeds the sentinel 1e6 of the two
    axes whose direction is zero, so the loop selects these axes, advances
    them by their step 0 and appends the unchanged point again: the call
    returns [true] with every point three times, and the distances from the
    origin do not increase strictly. *)
Lemma computeRay_repeats_points :
  let t := OcTreeBase_ctor Datatypes.unit (pow2 20) in
  let c := pow2 19 in
  let origin := P3 c c c in
  let end_ := P3 (dyadic 5 19) c c in
  let p1 := P3 (dyadic 3 19) c c in
  let p2 := P3 (dyadic 5 19) c c in
  computeRay t 7 origin end_ [] = Some (RayTrue, [p1; p1; p1; p2; p2; p2])
  /\ strictly_increasing (distances origin [p1; p1; p1; p2; p2; p2]) = false.
Proof. vm_compute. split; reflexivity. Qed.

(** ** The order of doubles *)

Module DoubleOrder.

Lemma dlt_lex a b :
  is_nan a = false -> is_nan b = false ->
  (dlt a b = true <-> lex_lt (ord a) (ord b)).
Proof.
  intros Ha Hb. unfold dlt, SFltb.
  destruct a as [sa|[|]| |[|] ma ea]; try discriminate Ha;
    destruct b as [sb|[|]| |[|] mb eb]; try discriminate Hb;
    cbn; try (split; [discriminate|lia]); try (split; [lia|reflexivity]).
  - (* both negative *)
    destruct (Z.compare_spec ea eb) as [E|E|E].
    + subst eb. rewrite Pos.compare_cont_antisym. cbn [CompOpp].
      change (Pos.compare_cont Eq mb ma) with (Pos.compare mb ma).
      destruct (Pos.compare_spec mb ma) as [F|F|F];
        (split; [try discriminate; lia | try reflexivity; lia]).
    + split; [discriminate|lia].
    + split; [lia|reflexivity].
  - (* both positive *)
    destruct (Z.compare_spec ea eb) as [E|E|E].
    + subst eb.
      change (Pos.compare_cont Eq ma mb) with (Pos.compare ma mb).
      destruct (Pos.compare_spec ma mb) as [F|F|F];
        (split; [try discriminate; lia | try reflexivity; lia]).
    + split; [lia|reflexivity].
    + split; [discriminate|lia].
Qed.

Lemma dle_lex a b :
  is_nan a = false -> is_nan b = false ->
  (dle a b = true <-> ~ lex_lt (ord b) (ord a)).
Proof.
  intros Ha Hb. unfold dle, SFleb.
  destruct a as [sa|[|]| |[|] ma ea]; try discriminate Ha;
    destruct b as [sb|[|]| |[|] mb eb]; try discriminate Hb;
    cbn; try (split; [lia|reflexivity]); try (split; [discriminate|lia]).
  - destruct (Z.compare_spec ea eb) as [E|E|E].
    + subst eb. rewrite Pos.compare_cont_antisym. cbn [CompOpp].
      change (Pos.compare_cont Eq mb ma) with (Pos.compare mb ma).
      destruct (Pos.compare_spec mb ma) as [F|F|F];
        (split; [try discriminate; lia | try reflexivity; lia]).
    + split; [discriminate|lia].
    + split; [lia|reflexivity].
  - destruct (Z.compare_spec ea eb) as [E|E|E].
    + subst eb.
      change (Pos.compare_cont Eq ma mb) with (Pos.compare ma mb).
      destruct (Pos.compare_spec ma mb) as [F|F|F];
        (split; [try discriminate; lia | try reflexivity; lia]).
    + split; [lia|reflexivity].
    + split; [discriminate|lia].
Qed.

Lemma dlt_false_lex a b :
  is_nan a = false -> is_nan b = false ->
  (dlt a b = false <-> ~ lex_lt (ord a) (ord b)).
Proof.
  intros Ha Hb. pose proof (dlt_lex a b Ha Hb) as H.
  destruct (dlt a b); split; intros G; try discriminate; try reflexivity.
  - exfalso. apply G, H. reflexivity.
  - intros L. apply H in L. discriminate.
Qed.

End DoubleOrder.
Import DoubleOrder.

(** C2 (ray tie-break), as the code has it.  For three [tMax] values none
    of which is a NaN, the axis the loop selects has the smallest [tMax],
    and every higher-numbered axis has a strictly larger one: among axes
    that tie for the smallest [tMax] the highest-numbered one is
    advanced. *)
Theorem min_tMax_highest_of_smallest (tMax : arr3 double) :
  is_nan (nth3 tMax 0) = false ->
  is_nan (nth3 tMax 1) = false ->
  is_nan (nth3 tMax 2) = false ->
  let i := min_tMax tMax in
  (i < 3)%nat
  /\ (forall j, (j < 3)%nat -> dle (nth3 tMax i) (nth3 tMax j) = true)
  /\ (forall j, (i < j < 3)%nat -> dlt (nth3 tMax i) (nth3 tMax j) = true).
Proof.
  destruct tMax as [[t0 t1] t2]. cbn [nth3]. intros N0 N1 N2.
  unfold min_tMax. cbn [nth3].
  assert (Hle : forall a b, is_nan a = false -> is_nan b = false ->
                  ~ lex_lt (ord b) (ord a) -> dle a b = true)
    by (intros a b Ha Hb; apply dle_lex; assumption).
  assert (Hlt : forall a b, is_nan a = false -> is_nan b = false ->
                  lex_lt (ord a) (ord b) -> dlt a b = true)
    by (intros a b Ha Hb; apply dlt_lex; assumption).
  assert (C01 : if dlt t0 t1 then lex_lt (ord t0) (ord t1)
                else ~ lex_lt (ord t0) (ord t1)).
  { destruct (dlt t0 t1) eqn:E; [apply dlt_lex|apply dlt_false_lex];
      assumption. }
  assert (C02 : if dlt t0 t2 then lex_lt (ord t0) (ord t2)
                else ~ lex_lt (ord t0) (ord t2)).
  { destruct (dlt t0 t2) eqn:E; [apply dlt_lex|apply dlt_false_lex];
      assumption. }
  assert (C12 : if dlt t1 t2 then lex_lt (ord t1) (ord t2)
                else ~ lex_lt (ord t1) (ord t2)).
  { destruct (dlt t1 t2) eqn:E; [apply dlt_lex|apply dlt_false_lex];
      assumption. }
  destruct (ord t0) as [[a0 b0] c0] eqn:O0.
  destruct (ord t1) as [[a1 b1] c1] eqn:O1.
  destruct (ord t2) as [[a2 b2] c2] eqn:O2.
  unfold lex_lt in C01, C02, C12.
  destruct (dlt t0 t1); [destruct (dlt t0 t2); clear C12
                        |destruct (dlt t1 t2); clear C02];
    cbv zeta; (split; [clear; lia|]); split; intros j Hj;
    destruct j as [|[|[|j]]]; try (exfalso; clear - Hj; lia);
    cbn [nth3];
    first [apply Hle|apply Hlt]; try assumption;
    rewrite ?O0, ?O1, ?O2; unfold lex_lt;
    clear Hle Hlt N0 N1 N2 O0 O1 O2; lia.
Qed.

Lemma min_tMax_highest_of_smallest_witness :
  let tMax := (one, one, of_Z 2) in
  min_tMax tMax = 1%nat
  /\ dle (nth3 tMax 1) (nth3 tMax 0) = true
  /\ dlt (nth3 tMax 1) (nth3 tMax 2) = true.
Proof.
  intros tMax.
  destruct (min_tMax_highest_of_smallest tMax eq_refl eq_refl eq_refl)
    as (_ & Hle & Hlt).
  split; [reflexivity|]. split.
  - exact (Hle 0%nat ltac:(lia)).
  - exact (Hlt 2%nat ltac:(vm_compute; lia)).
Defined.

(** C2 (ray tie-break), as the claim states it, fails.  With [tMax] equal
    on axes 0 and 1 and larger on axis 2 the lowest-numbered axis with the
    smallest [tMax] is 0, and the loop selects axis 1.  So a ray of
    direction (1,1,0) from the grid-aligned origin (0,0,0), at resolution
    1.0, first advances along y: its first point is (0.5, 1.5, 0.5). *)
Lemma min_tMax_tie_selects_higher_axis :
  let tMax := (one, one, of_Z 2) in
  let t := OcTreeBase_ctor Datatypes.unit one in
  let origin := P3 zero zero zero in
  let end_ := P3 (of_Z 2) (of_Z 2) zero in
  lowest_min_tMax tMax = 0%nat
  /\ min_tMax tMax = 1%nat
  /\ (exists a0 a1,
        init_axis t origin end_ (unit (p_sub end_ origin)) 0 = inr a0
        /\ init_axis t origin end_ (unit (p_sub end_ origin)) 1 = inr a1
        /\ a_tMax a0 = a_tMax a1)
  /\ computeRay t 3 origin end_ []
     = Some (RayTrue, [P3 half (dyadic 3 (-1)) half;
                       P3 (dyadic 3 (-1)) (dyadic 3 (-1)) half]).
Proof.
  cbv zeta. split; [reflexivity|]. split; [reflexivity|]. split.
  - eexists. eexists. split; [vm_compute; reflexivity|].
    split; [vm_compute; reflexivity|]. reflexivity.
  - vm_compute. reflexivity.
Qed.

(** ** Nodes: induction *)

Lemma node_ind' (A : Type) (P : node A -> Prop) :
  (forall a cs, (forall i c, cs i = Some c -> P c) -> P (Node a cs)) ->
  forall n, P n.
Proof.
  intros H. fix IH 1. intros [a cs]. apply H. intros i.
  destruct (cs i) as [c'|]; intros c E.
  - injection E as <-. apply IH.
  - discriminate E.
Qed.

(** ** Point lookup *)

Module SearchFacts.

Lemma land_bit k i :
  0 <= i -> (Z.land k (Z.shiftl 1 i) =? 0) = negb (Z.testbit k i).
Proof.
  intros Hi. destruct (Z.testbit k i) eqn:B; cbn [negb].
  - apply Z.eqb_neq. intros E.
    assert (T : Z.testbit (Z.land k (Z.shiftl 1 i)) i = true).
    { rewrite Z.land_spec, B, Z.shiftl_spec by lia.
      rewrite Z.sub_diag. reflexivity. }
    rewrite E, Z.bits_0 in T. discriminate.
  - apply Z.eqb_eq. apply Z.bits_inj'. intros j Hj.
    rewrite Z.land_spec, Z.bits_0, Z.shiftl_spec by lia.
    destruct (Z.eq_dec j i) as [->|N]; [rewrite B; reflexivity|].
    replace (Z.testbit 1 (j - i)) with false; [apply andb_false_r|].
    symmetry. destruct (Z_lt_le_dec j i).
    + apply Z.testbit_neg_r. lia.
    + change 1 with (2 ^ 0). apply Z.pow2_bits_false. lia.
Qed.

(** [genPos] is the octant index of section 4.2. *)
Lemma genPos_octantIndex key i : 0 <= i -> genPos key i = octantIndex key i.
Proof.
  intros Hi. unfold genPos, octantIndex.
  rewrite !land_bit by assumption.
  destruct (Z.testbit (nth3 key 0) i), (Z.testbit (nth3 key 1) i),
    (Z.testbit (nth3 key 2) i); reflexivity.
Qed.

Lemma octantIndex_range key i : In (octantIndex key i) octants.
Proof.
  unfold octantIndex, octants.
  destruct (Z.testbit (nth3 key 0) i), (Z.testbit (nth3 key 1) i),
    (Z.testbit (nth3 key 2) i); cbn; tauto.
Qed.

Lemma search_loop_descend {A} levels (cur : node A) key :
  search_loop levels cur key =
    match descend cur (octant_path key levels) with
    | Some n => Found n
    | None => Null
    end.
Proof.
  revert cur. induction levels as [|i IH]; intros cur; [reflexivity|].
  cbn [search_loop octant_path descend].
  rewrite genPos_octantIndex by lia.
  destruct (getChild cur (octantIndex key (Z.of_nat i))) as [child|].
  - apply IH.
  - destruct (hasChildren cur); reflexivity.
Qed.

Lemma search_levels_depth {A} (t : OcTreeBase A) :
  0 <= tree_depth t <= 31 -> search_levels t = Z.to_nat (tree_depth t).
Proof.
  intros H. unfold search_levels. rewrite int_of_uint_of.
  rewrite int_of_small by lia. f_equal. lia.
Qed.

Lemma hasChildren_false {A} (n : node A) i :
  hasChildren n = false -> In i octants -> getChild n i = None.
Proof.
  unfold hasChildren. intros H I.
  destruct (getChild n i) as [c|] eqn:E; [|reflexivity].
  assert (X : existsb (childExists n) octants = true).
  { apply existsb_exists. exists i. split; [assumption|].
    unfold childExists. rewrite E. reflexivity. }
  rewrite X in H. discriminate.
Qed.

End SearchFacts.
Import SearchFacts.

(** C5 (search descent).  For a point whose three coordinates encode, in a
    tree with a root, [search] follows from the root the octants of the
    encoded keys at the levels [tree_depth-1], ..., [0]: it descends into
    the octant's child when there is one, returns the current node when
    that node has no children at all, returns [NULL] when the node has
    children but not this one, and returns the node reached after the last
    level.  In particular a root without children is returned for every
    such point. *)
Theorem search_descent (A : Type) (t : OcTreeBase A) (value : point3d)
    (key : arr3 Z) (root : node A) :
  0 <= tree_depth t <= 31 ->
  genKeys t value = Some key ->
  itsRoot t = Some root ->
  search t value =
    match descend root (octant_path key (Z.to_nat (tree_depth t))) with
    | Some n => Found n
    | None => Null
    end
  /\ (hasChildren root = false -> search t value = Found root).
Proof.
  intros Hd Hk Hr.
  assert (E : search t value =
              match descend root (octant_path key (Z.to_nat (tree_depth t)))
              with Some n => Found n | None => Null end).
  { unfold search. rewrite Hk, Hr, search_levels_depth by assumption.
    apply search_loop_descend. }
  split; [exact E|].
  intros Hleaf. rewrite E.
  destruct (Z.to_nat (tree_depth t)) as [|i]; [reflexivity|].
  cbn [octant_path descend].
  rewrite (hasChildren_false root _ Hleaf (octantIndex_range key _)), Hleaf.
  reflexivity.
Qed.

Lemma search_descent_witness :
  let root := Node 7 (fun i => if i =? 5 then Some (leaf 9) else None) in
  let t := mkOcTreeBase (Some root) 16 32768 one one
             (P3 (of_Z 32768) (of_Z 32768) (of_Z 32768)) 2
             (P3 zero zero zero) (P3 zero zero zero) true in
  search t (P3 half (of_Z (-3)) half) = Found (leaf 9)
  /\ search t (P3 half half half) = Null.
Proof.
  intros root t. split.
  - rewrite (proj1 (search_descent _ t (P3 half (of_Z (-3)) half)
                      (32768, 32765, 32768) root
                      ltac:(vm_compute; split; discriminate)
                      eq_refl eq_refl)).
    reflexivity.
  - rewrite (proj1 (search_descent _ t (P3 half half half)
                      (32768, 32768, 32768) root
                      ltac:(vm_compute; split; discriminate)
                      eq_refl eq_refl)).
    reflexivity.
Defined.

(** ** Enumeration *)

Section EnumerationFacts.
Context {A : Type}.
Variable t : OcTreeBase A.

Lemma getVoxelsRecurs_eq max_depth (n : node A) depth center :
  getVoxelsRecurs t max_depth n depth center =
    if (depth <? max_depth) && hasChildren n then
      flat_map (fun i =>
          match getChild n i with
          | Some child =>
              getVoxelsRecurs t max_depth child (depth + 1)
                (search_center center (center_offset t depth) i)
          | None => [(p_sub center (tree_center t), voxelSize t depth)]
          end) octants
    else [].
Proof.
  destruct n as [a cs]. cbn [getVoxelsRecurs].
  destruct (Z.leb_spec depth max_depth), (Z.ltb_spec depth max_depth),
    (Z.eqb_spec depth max_depth); try lia; cbn [negb andb];
    rewrite ?andb_true_r, ?andb_false_r; try reflexivity;
    destruct (hasChildren (Node a cs)); reflexivity.
Qed.

Lemma internal_nodes_eq max_depth (n : node A) depth center :
  internal_nodes t max_depth n depth center =
    if (depth <? max_depth) && hasChildren n then
      (n, depth, center)
      :: flat_map (fun i =>
           match getChild n i with
           | Some child =>
               internal_nodes t max_depth child (depth + 1)
                 (search_center center (center_offset t depth) i)
           | None => []
           end) octants
    else [].
Proof. destruct n; reflexivity. Qed.

Lemma flat_map_flat_map {X Y W} (f : X -> list Y) (g : Y -> list W) l :
  flat_map g (flat_map f l) = flat_map (fun x => flat_map g (f x)) l.
Proof.
  induction l as [|x l IH]; [reflexivity|].
  cbn [flat_map]. rewrite flat_map_app, IH. reflexivity.
Qed.

Lemma flat_map_head {X Y} (f : X -> list Y) x l :
  flat_map f (x :: l) = f x ++ flat_map f l.
Proof. reflexivity. Qed.

(** The loop over the octants, with the records of the missing octants
    moved to the front. *)
Lemma octant_loop_perm {X} (n : node A) (v : OcTreeVolume)
    (R : Z -> node A -> list OcTreeVolume)
    (T : Z -> node A -> list X) (G : X -> list OcTreeVolume)
    (l : list Z) :
  (forall i child, getChild n i = Some child ->
                   Permutation (R i child) (flat_map G (T i child))) ->
  Permutation
    (flat_map (fun i => match getChild n i with
                        | Some child => R i child
                        | None => [v]
                        end) l)
    (map (fun _ => v) (filter (fun i => negb (childExists n i)) l)
     ++ flat_map (fun i => flat_map G match getChild n i with
                                      | Some child => T i child
                                      | None => []
                                      end) l).
Proof.
  intros H. induction l as [|i l IH]; [constructor|].
  rewrite !flat_map_head. cbn [filter]. unfold childExists at 1.
  destruct (getChild n i) as [child|] eqn:E; cbn [negb].
  - eapply Permutation_trans.
    + apply Permutation_app; [apply H; assumption|exact IH].
    + rewrite !app_assoc. apply Permutation_app_tail, Permutation_app_comm.
  - cbn [map app flat_map]. constructor. exact IH.
Qed.

(** What [getVoxelsRecurs] pushes is, up to order, one record per missing
    octant of each internal node above the cutoff. *)
Lemma getVoxelsRecurs_gaps max_depth (n : node A) :
  forall depth center,
    Permutation (getVoxelsRecurs t max_depth n depth center)
      (flat_map (gap_records t)
         (internal_nodes t max_depth n depth center)).
Proof.
  induction n as [a cs IH] using node_ind'. intros depth center.
  rewrite getVoxelsRecurs_eq, internal_nodes_eq.
  destruct ((depth <? max_depth) && hasChildren (Node a cs));
    [|constructor].
  rewrite flat_map_head, flat_map_flat_map.
  unfold gap_records at 1.
  apply octant_loop_perm
    with (T := fun i child =>
                 internal_nodes t max_depth child (depth + 1)
                   (search_center center (center_offset t depth) i)).
  intros i child E. apply (IH i child E).
Qed.

(** The internal nodes above the cutoff lie between the start depth and
    the cutoff and have children. *)
Lemma internal_nodes_depth max_depth (n : node A) :
  forall depth center n' d' c',
    In (n', d', c') (internal_nodes t max_depth n depth center) ->
    depth <= d' < max_depth /\ hasChildren n' = true.
Proof.
  induction n as [a cs IH] using node_ind'.
  intros depth center n' d' c'. rewrite internal_nodes_eq.
  destruct (depth <? max_depth) eqn:D; [|intros []].
  destruct (hasChildren (Node a cs)) eqn:C; [|intros []].
  apply Z.ltb_lt in D. cbn [andb]. intros [E|I].
  - injection E as <- <- <-. split; [lia|assumption].
  - apply in_flat_map in I. destruct I as (i & _ & I).
    destruct (getChild (Node a cs) i) as [child|] eqn:G; [|destruct I].
    apply (IH i child G) in I. split; [lia|tauto].
Qed.

(** In a subtree of at most [h] levels they lie less than [h] below the
    start depth. *)
Lemma internal_nodes_height max_depth h (n : node A) :
  forall depth center n' d' c',
    height_le h n ->
    In (n', d', c') (internal_nodes t max_depth n depth center) ->
    d' < depth + Z.of_nat h.
Proof.
  revert n. induction h as [|h IH]; intros n depth center n' d' c' Hh.
  - rewrite internal_nodes_eq. cbn [height_le] in Hh. rewrite Hh.
    rewrite andb_false_r. intros [].
  - rewrite internal_nodes_eq.
    destruct ((depth <? max_depth) && hasChildren n); [|intros []].
    intros [E|I].
    + injection E as <- <- <-. lia.
    + apply in_flat_map in I. destruct I as (i & Hi & I).
      destruct (getChild n i) as [child|] eqn:G; [|destruct I].
      cbn [height_le] in Hh. specialize (Hh i child Hi G).
      apply (IH child _ _ _ _ _ Hh) in I. lia.
Qed.

End EnumerationFacts.

Lemma pow2_check_all : all_below 10 0 pow2_check = true.
Proof. vm_compute. reflexivity. Qed.

Lemma pow2_of_Z n : 0 <= n <= 1023 -> pow2 n = of_Z (2 ^ n).
Proof.
  intros Hn.
  pose proof (all_below_spec 10 pow2_check 0 pow2_check_all n) as H.
  change (0 * 2 ^ Z.of_nat 10) with 0 in H.
  change ((0 + 1) * 2 ^ Z.of_nat 10) with 1024 in H.
  specialize (H ltac:(lia)). unfold pow2_check in H.
  destruct (pow2 n) as [| | |[|] m1 e1]; try discriminate H.
  destruct (of_Z (2 ^ n)) as [| | |[|] m2 e2]; try discriminate H.
  apply andb_prop in H. destruct H as [H E2].
  apply andb_prop in H. destruct H as [H M2].
  apply andb_prop in H. destruct H as [M1 E1].
  apply Z.eqb_eq in M1, E1, M2, E2.
  assert (m1 = m2) by lia. subst. reflexivity.
Qed.

Lemma flat_map_ext_In {X Y} (f g : X -> list Y) l :
  (forall x, In x l -> f x = g x) -> flat_map f l = flat_map g l.
Proof.
  induction l as [|x l IH]; intros H; [reflexivity|].
  rewrite !flat_map_head, (H x (or_introl eq_refl)), IH; [reflexivity|].
  intros y Hy. apply H. right. exact Hy.
Qed.

(** The code's centres and edges are those of section 4.5 in a tree whose
    centre has the same coordinate on the three axes, as [setResolution]
    leaves it. *)
Section EnumerationWordsFacts.
Context {A : Type}.
Variable t : OcTreeBase A.
Hypothesis Hdepth : tree_depth t <= 1023.
Hypothesis Hcy : py (tree_center t) = px (tree_center t).
Hypothesis Hcz : pz (tree_center t) = px (tree_center t).

Lemma voxelSize_spec depth :
  0 <= depth <= tree_depth t -> voxelSize t depth = spec_edge t depth.
Proof.
  intros Hd. unfold voxelSize, spec_edge.
  rewrite uint_of_small by (change (2 ^ 32) with 4294967296; lia).
  rewrite pow2_of_Z by lia. reflexivity.
Qed.

Lemma center_offset_spec axis depth :
  0 <= depth < tree_depth t ->
  center_offset t depth = spec_center_offset t axis depth.
Proof.
  intros Hd. unfold center_offset, spec_center_offset.
  rewrite pow2_of_Z by lia.
  destruct axis as [|[|axis]]; cbn [coord]; rewrite ?Hcy, ?Hcz; reflexivity.
Qed.

Lemma search_center_spec center depth i :
  0 <= depth < tree_depth t ->
  search_center center (center_offset t depth) i
  = spec_child_center t center depth i.
Proof.
  intros Hd. unfold search_center, spec_child_center. cbv zeta.
  change 1 with (Z.shiftl 1 0) at 1.
  change 2 with (Z.shiftl 1 1) at 1.
  change 4 with (Z.shiftl 1 2).
  rewrite !SearchFacts.land_bit by lia.
  rewrite <- !(center_offset_spec _ depth Hd).
  change (Z.of_nat 0) with 0. change (Z.of_nat 1) with 1.
  change (Z.of_nat 2) with 2. cbn [coord].
  destruct (Z.testbit i 0), (Z.testbit i 1), (Z.testbit i 2); reflexivity.
Qed.

Lemma spec_internal_nodes_eq max_depth (n : node A) depth center :
  spec_internal_nodes t max_depth n depth center =
    if (depth <? max_depth) && hasChildren n then
      (n, depth, center)
      :: flat_map (fun i =>
           match getChild n i with
           | Some child =>
               spec_internal_nodes t max_depth child (depth + 1)
                 (spec_child_center t center depth i)
           | None => []
           end) octants
    else [].
Proof. destruct n; reflexivity. Qed.

Lemma height_le_internal h (n : node A) :
  height_le h n -> hasChildren n = true -> (0 < h)%nat.
Proof.
  destruct h as [|h]; cbn [height_le]; [congruence|lia].
Qed.

Lemma internal_nodes_spec max_depth (n : node A) :
  forall depth center,
    0 <= depth ->
    max_depth <= tree_depth t
    \/ height_le (Z.to_nat (tree_depth t - depth)) n ->
    internal_nodes t max_depth n depth center
    = spec_internal_nodes t max_depth n depth center.
Proof.
  induction n as [a cs IH] using node_ind'. intros depth center H0 Hb.
  rewrite internal_nodes_eq, spec_internal_nodes_eq.
  destruct (Z.ltb_spec depth max_depth) as [L|L]; [|reflexivity].
  destruct (hasChildren (Node a cs)) eqn:C; [|reflexivity].
  cbn [andb]. f_equal.
  assert (Hd : depth < tree_depth t).
  { destruct Hb as [Hb|Hb]; [lia|].
    pose proof (height_le_internal _ _ Hb C). lia. }
  apply flat_map_ext_In. intros i Hi.
  destruct (getChild (Node a cs) i) as [child|] eqn:G; [|reflexivity].
  rewrite search_center_spec by lia.
  apply (IH i child G); [lia|].
  destruct Hb as [Hb|Hb]; [left; exact Hb|right].
  replace (Z.to_nat (tree_depth t - depth))
    with (S (Z.to_nat (tree_depth t - (depth + 1)))) in Hb by lia.
  cbn [height_le] in Hb. exact (Hb i child Hi G).
Qed.

Lemma gap_records_spec (n : node A) depth center :
  0 <= depth <= tree_depth t ->
  gap_records t (n, depth, center) = spec_gap_records t (n, depth, center).
Proof.
  intros Hd. unfold gap_records, spec_gap_records.
  rewrite voxelSize_spec by exact Hd. reflexivity.
Qed.

End EnumerationWordsFacts.

(** C8 (records of missing octants).  For a tree with a root that has at
    most [tree_depth] levels below it, or a depth cutoff of at most
    [tree_depth], [getVoxels] appends to [voxels], up to order, exactly one
    record for every missing octant of every internal node visited
    strictly above the cutoff, with centre (node centre - tree centre) and
    edge [resolution * 2^(tree_depth - depth)], the centre of a node being
    that of its parent moved by [tree_center / 2^(depth+1)] along each
    axis, towards the side the bit of the octant names; children that
    exist are descended into; and every node that emits lies at a depth
    below the cutoff and below [tree_depth]. *)
Theorem getVoxels_gaps (A : Type) (t : OcTreeBase A)
    (voxels : list OcTreeVolume) (max_depth : Z) (root : node A) :
  itsRoot t = Some root ->
  0 <= tree_depth t <= 1023 ->
  py (tree_center t) = px (tree_center t) ->
  pz (tree_center t) = px (tree_center t) ->
  let cutoff := if max_depth =? 0 then tree_depth t else max_depth in
  cutoff <= tree_depth t \/ height_le (Z.to_nat (tree_depth t)) root ->
  exists out,
    getVoxels t voxels max_depth = Some (voxels ++ out)
    /\ Permutation out
         (flat_map (spec_gap_records t)
            (spec_internal_nodes t cutoff root 0 (tree_center t)))
    /\ (forall n d c,
          In (n, d, c) (spec_internal_nodes t cutoff root 0 (tree_center t)) ->
          0 <= d < cutoff /\ d < tree_depth t /\ hasChildren n = true).
Proof.
  intros Hr Hd Hcy Hcz cutoff Hc.
  assert (Hb : cutoff <= tree_depth t
               \/ height_le (Z.to_nat (tree_depth t - 0)) root).
  { rewrite Z.sub_0_r. exact Hc. }
  pose proof (internal_nodes_spec t (proj2 Hd) Hcy Hcz cutoff root 0
                (tree_center t) (Z.le_refl 0) Hb) as E.
  assert (Hin : forall n d c,
            In (n, d, c) (internal_nodes t cutoff root 0 (tree_center t)) ->
            0 <= d < cutoff /\ d < tree_depth t /\ hasChildren n = true).
  { intros n d c I.
    pose proof (internal_nodes_depth t _ _ _ _ _ _ _ I) as [Hdep Hch].
    repeat split; try lia; try assumption.
    destruct Hc as [Hc|Hc]; [lia|].
    pose proof (internal_nodes_height t _ _ _ _ _ _ _ _ Hc I). lia. }
  exists (getVoxelsRecurs t cutoff root 0 (tree_center t)).
  split; [unfold getVoxels; rewrite Hr; reflexivity|].
  rewrite <- E. split; [|exact Hin].
  eapply Permutation_trans; [apply getVoxelsRecurs_gaps|].
  rewrite (flat_map_ext_In (gap_records t) (spec_gap_records t));
    [apply Permutation_refl|].
  intros [[n d] c] I. destruct (Hin n d c I) as (H1 & H2 & _).
  apply (gap_records_spec t (proj2 Hd)). lia.
Qed.

Lemma getVoxels_gaps_witness :
  let root := Node 7 (fun i => if i =? 3 then Some (leaf 9) else None) in
  let t := mkOcTreeBase (Some root) 16 32768 one one
             (P3 (of_Z 32768) (of_Z 32768) (of_Z 32768)) 2
             (P3 zero zero zero) (P3 zero zero zero) true in
  let cutoff := if 0 =? 0 then tree_depth t else 0 in
  exists out,
    getVoxels t [] 0 = Some ([] ++ out)
    /\ Permutation out
         (flat_map (spec_gap_records t)
            (spec_internal_nodes t cutoff root 0 (tree_center t)))
    /\ (forall n d c,
          In (n, d, c) (spec_internal_nodes t cutoff root 0 (tree_center t)) ->
          0 <= d < cutoff /\ d < tree_depth t /\ hasChildren n = true).
Proof.
  intros root t.
  assert (Hroot : itsRoot t = Some root) by reflexivity.
  assert (Hdepth : 0 <= tree_depth t <= 1023) by (cbn; lia).
  assert (Hcy : py (tree_center t) = px (tree_center t)) by reflexivity.
  assert (Hcz : pz (tree_center t) = px (tree_center t)) by reflexivity.
  assert (Hcut : (if 0 =? 0 then tree_depth t else 0) <= tree_depth t)
    by (cbn; lia).
  exact (getVoxels_gaps Z t [] 0 root Hroot Hdepth Hcy Hcz (or_introl Hcut)).
Defined.

(** * Further properties *)

(** ** The codec *)

Lemma genKey_range (A : Type) (t : OcTreeBase A) val key :
  0 < tree_max_val t <= 32768 ->
  genKey t val = Some key -> 0 < key < 2 * tree_max_val t.
Proof.
  intros Ht. rewrite genKey_eq by exact Ht.
  destruct (Zfloor (dmul (resolution_factor t) val)) as [f|]; [|discriminate].
  cbv zeta.
  destruct (Z.ltb_spec 0 (f + tree_max_val t));
    destruct (Z.ltb_spec (f + tree_max_val t) (2 * tree_max_val t));
    cbn [andb]; try discriminate.
  intros [= <-]. lia.
Qed.

(** X1.  [genKeys] fails exactly when [genKey] fails on one of the three
    coordinates; when it succeeds its keys are those of [genKey], each
    strictly between 0 and [2*tree_max_val]: the key 0 is never produced. *)
Theorem genKeys_keys (A : Type) (t : OcTreeBase A) (point : point3d) :
  0 < tree_max_val t <= 32768 ->
  (genKeys t point = None <->
   exists i, (i < 3)%nat /\ genKey t (coord point i) = None)
  /\ (forall k, genKeys t point = Some k ->
      forall i, (i < 3)%nat ->
        genKey t (coord point i) = Some (nth3 k i)
        /\ 0 < nth3 k i < 2 * tree_max_val t).
Proof.
  intros Ht. split.
  - unfold genKeys. split.
    + destruct (genKey t (coord point 0)) as [k0|] eqn:E0;
        [|intros _; exists 0%nat; split; [lia|exact E0]].
      destruct (genKey t (coord point 1)) as [k1|] eqn:E1;
        [|intros _; exists 1%nat; split; [lia|exact E1]].
      destruct (genKey t (coord point 2)) as [k2|] eqn:E2;
        [discriminate|intros _; exists 2%nat; split; [lia|exact E2]].
    + intros (i & Hi & E).
      destruct i as [|[|[|i]]]; try lia.
      * rewrite E. reflexivity.
      * destruct (genKey t (coord point 0)); [rewrite E|]; reflexivity.
      * destruct (genKey t (coord point 0)); [|reflexivity].
        destruct (genKey t (coord point 1)); [rewrite E|]; reflexivity.
  - intros k Hk i Hi. apply genKeys_inv in Hk. destruct Hk as (K0 & K1 & K2).
    destruct i as [|[|[|i]]]; try lia.
    + split; [exact K0|]. exact (genKey_range A t _ _ Ht K0).
    + split; [exact K1|]. exact (genKey_range A t _ _ Ht K1).
    + split; [exact K2|]. exact (genKey_range A t _ _ Ht K2).
Qed.

Lemma genKeys_keys_witness :
  let t := OcTreeBase_ctor Datatypes.unit one in
  let p := P3 half (of_Z (-3)) (of_Z 40000) in
  exists i, (i < 3)%nat /\ genKey t (coord p i) = None.
Proof.
  intros t p.
  apply (proj1 (genKeys_keys _ t p ltac:(cbn; lia))).
  vm_compute. reflexivity.
Defined.

(** X2.  In a tree with [tree_max_val = 32768] and [resolution_factor =
    1/resolution] whose resolution is a normal double with [2^-1021 <=
    resolution < 2^1008], [genVal] accepts the key 0 and decodes it to a
    coordinate that [genKey] rejects. *)
Theorem genVal_zero_key_not_encoded (A : Type) (t : OcTreeBase A)
    (val : double) :
  tree_max_val t = 32768 ->
  resolution_factor t = ddiv one (resolution t) ->
  resolution_ok (resolution t) ->
  fst (genVal t 0 val) = true
  /\ genKey t (snd (genVal t 0 val)) = None.
Proof.
  intros Hmax Hrf Hres. split.
  - apply genVal_total; [exact Hmax|lia].
  - rewrite genKey_eq by (rewrite Hmax; lia).
    rewrite (round_trip_floor t Hmax Hrf Hres 0 val) by lia.
    rewrite Hmax. reflexivity.
Qed.

Lemma genVal_zero_key_not_encoded_witness :
  let t := OcTreeBase_ctor Datatypes.unit (ddiv one (of_Z 10)) in
  fst (genVal t 0 one) = true /\ genKey t (snd (genVal t 0 one)) = None.
Proof.
  intros t.
  apply (genVal_zero_key_not_encoded Datatypes.unit t one).
  - reflexivity.
  - reflexivity.
  - vm_compute. repeat split; discriminate.
Defined.

(** X3.  Under the same conditions two different keys never decode to the
    same coordinate. *)
Theorem genVal_injective (A : Type) (t : OcTreeBase A) (k1 k2 : Z)
    (v1 v2 : double) :
  tree_max_val t = 32768 ->
  resolution_factor t = ddiv one (resolution t) ->
  resolution_ok (resolution t) ->
  0 <= k1 < 65536 -> 0 <= k2 < 65536 ->
  snd (genVal t k1 v1) = snd (genVal t k2 v2) ->
  k1 = k2.
Proof.
  intros Hmax Hrf Hres H1 H2 E.
  pose proof (round_trip_floor t Hmax Hrf Hres k1 v1 H1) as F1.
  pose proof (round_trip_floor t Hmax Hrf Hres k2 v2 H2) as F2.
  rewrite E, F2 in F1. injection F1 as F1. lia.
Qed.

Lemma genVal_injective_witness :
  let t := OcTreeBase_ctor Datatypes.unit (ddiv one (of_Z 10)) in
  snd (genVal t 7 zero) = snd (genVal t 7 one) /\ 7 = 7.
Proof.
  intros t. split; [reflexivity|].
  apply (genVal_injective Datatypes.unit t 7 7 zero one).
  - reflexivity.
  - reflexivity.
  - vm_compute. repeat split; discriminate.
  - lia.
  - lia.
  - reflexivity.
Defined.

(** ** Octant addressing *)

Lemma genPos_testbit (key : arr3 Z) (i : Z) :
  0 <= i ->
  0 <= genPos key i <= 7
  /\ Z.testbit (genPos key i) 0 = Z.testbit (nth3 key 0) i
  /\ Z.testbit (genPos key i) 1 = Z.testbit (nth3 key 1) i
  /\ Z.testbit (genPos key i) 2 = Z.testbit (nth3 key 2) i.
Proof.
  intros Hi. unfold genPos. rewrite !land_bit by assumption.
  destruct (Z.testbit (nth3 key 0) i), (Z.testbit (nth3 key 1) i),
    (Z.testbit (nth3 key 2) i); cbn; repeat split; lia.
Qed.

(** X4.  For a level [0 <= i <= 30], where the shift [1 << i] of the
    code is defined, [genPos] packs bit [i] of the three keys into the bits
    0, 1 and 2 of its result, which is an octant 0..7. *)
Theorem genPos_bits (key : arr3 Z) (i : Z) :
  0 <= i <= 30 ->
  0 <= genPos key i <= 7
  /\ Z.testbit (genPos key i) 0 = Z.testbit (nth3 key 0) i
  /\ Z.testbit (genPos key i) 1 = Z.testbit (nth3 key 1) i
  /\ Z.testbit (genPos key i) 2 = Z.testbit (nth3 key 2) i.
Proof. intros Hi. apply genPos_testbit. lia. Qed.

Lemma genPos_bits_witness :
  0 <= genPos (32768, 32765, 32768) 15 <= 7
  /\ Z.testbit (genPos (32768, 32765, 32768) 15) 0 = Z.testbit 32768 15
  /\ Z.testbit (genPos (32768, 32765, 32768) 15) 1 = Z.testbit 32765 15
  /\ Z.testbit (genPos (32768, 32765, 32768) 15) 2 = Z.testbit 32768 15.
Proof. apply (genPos_bits (32768, 32765, 32768) 15). lia. Defined.

Lemma ushort_bits_eq a b :
  0 <= a < 65536 -> 0 <= b < 65536 ->
  (forall i, 0 <= i < 16 -> Z.testbit a i = Z.testbit b i) -> a = b.
Proof.
  intros Ha Hb H. apply Z.bits_inj'. intros i Hi.
  destruct (Z_lt_le_dec i 16) as [L|G]; [apply H; lia|].
  rewrite !Z.bits_above_log2; try reflexivity; try lia.
  - destruct (Z.eq_dec b 0) as [->|]; [cbn; lia|].
    apply Z.lt_le_trans with 16; [|assumption].
    apply Z.log2_lt_pow2; [lia|]. change (2 ^ 16) with 65536. lia.
  - destruct (Z.eq_dec a 0) as [->|]; [cbn; lia|].
    apply Z.lt_le_trans with 16; [|assumption].
    apply Z.log2_lt_pow2; [lia|]. change (2 ^ 16) with 65536. lia.
Qed.

(** X5.  The octants of the sixteen levels determine the keys: two triples
    of [unsigned short] keys with the same [genPos] at every level 0..15
    are equal. *)
Theorem genPos_determines_keys (k k' : arr3 Z) :
  ushort3 k -> ushort3 k' ->
  (forall i, 0 <= i < 16 -> genPos k i = genPos k' i) ->
  k = k'.
Proof.
  intros (H0 & H1 & H2) (H0' & H1' & H2') H.
  assert (B : forall i, 0 <= i < 16 ->
            Z.testbit (nth3 k 0) i = Z.testbit (nth3 k' 0) i
            /\ Z.testbit (nth3 k 1) i = Z.testbit (nth3 k' 1) i
            /\ Z.testbit (nth3 k 2) i = Z.testbit (nth3 k' 2) i).
  { intros i Hi.
    destruct (genPos_testbit k i ltac:(lia)) as (_ & A0 & A1 & A2).
    destruct (genPos_testbit k' i ltac:(lia)) as (_ & B0 & B1 & B2).
    rewrite <- A0, <- A1, <- A2, <- B0, <- B1, <- B2, (H i Hi).
    repeat split. }
  destruct k as [[a0 a1] a2], k' as [[b0 b1] b2]. cbn [nth3] in *.
  f_equal; [f_equal|]; apply ushort_bits_eq; try assumption;
    intros i Hi; apply (B i Hi).
Qed.

Lemma genPos_determines_keys_witness :
  ushort3 (1, 2, 3) /\ (1, 2, 3) = (1, 2, 3).
Proof.
  assert (H : ushort3 (1, 2, 3)) by (unfold ushort3; cbn; lia).
  split; [exact H|].
  exact (genPos_determines_keys (1, 2, 3) (1, 2, 3) H H
           (fun i _ => eq_refl)).
Defined.

(** ** Point lookup *)

(** X6.  [search] checks the point before it touches the tree: a point
    that does not encode gives [NULL] whatever the root is, and a point
    that encodes makes a tree without a root, as the constructor leaves
    it, dereference [NULL]. *)
Theorem search_without_root (A : Type) (t : OcTreeBase A) (value : point3d) :
  itsRoot t = None ->
  1 <= tree_depth t <= 31 ->
  search t value =
    match genKeys t value with
    | None => Null
    | Some _ => NullDeref
    end.
Proof.
  intros Hr Hd. unfold search. rewrite Hr.
  destruct (genKeys t value); [|reflexivity].
  rewrite search_levels_depth by lia.
  destruct (Z.to_nat (tree_depth t)) eqn:E; [lia|reflexivity].
Qed.

Lemma search_without_root_witness :
  let t := OcTreeBase_ctor Datatypes.unit one in
  search t (P3 half half half) = NullDeref
  /\ search t (P3 half (of_Z 40000) half) = Null.
Proof.
  intros t. split.
  - rewrite (search_without_root _ t (P3 half half half) eq_refl
               ltac:(cbn; lia)).
    reflexivity.
  - rewrite (search_without_root _ t (P3 half (of_Z 40000) half) eq_refl
               ltac:(cbn; lia)).
    reflexivity.
Defined.

Lemma descend_on_path {A} (path : list Z) :
  forall cur : node A,
    match descend cur path with
    | Some n =>
        exists pre post,
          path = pre ++ post /\ follow cur pre = Some n
          /\ (post = [] \/ hasChildren n = false)
    | None =>
        exists pre o post m,
          path = pre ++ o :: post /\ follow cur pre = Some m
          /\ getChild m o = None /\ hasChildren m = true
    end.
Proof.
  induction path as [|o rest IH]; intros cur.
  - cbn [descend]. exists [], []. repeat split. left. reflexivity.
  - cbn [descend]. destruct (getChild cur o) as [child|] eqn:E.
    + specialize (IH child). destruct (descend child rest) as [n|].
      * destruct IH as (pre & post & -> & F & L).
        exists (o :: pre), post. split; [reflexivity|].
        split; [cbn [follow]; rewrite E; exact F|exact L].
      * destruct IH as (pre & o' & post & m & -> & F & G & C).
        exists (o :: pre), o', post, m. split; [reflexivity|].
        split; [cbn [follow]; rewrite E; exact F|]. split; assumption.
    + destruct (hasChildren cur) eqn:C.
      * exists [], o, rest, cur. repeat split; assumption.
      * exists [], (o :: rest). repeat split. right. exact C.
Qed.

(** X7.  For a point that encodes, in a tree with a root, the node
    [search] returns lies on the path of the point: it is reached from the
    root through the octants of the first levels, all of which exist, and
    it has no children unless all [tree_depth] levels were descended.
    [search] returns [NULL] only at a node on that path that has children
    but not the octant of the next level. *)
Theorem search_on_path (A : Type) (t : OcTreeBase A) (value : point3d)
    (key : arr3 Z) (root : node A) :
  0 <= tree_depth t <= 31 ->
  genKeys t value = Some key ->
  itsRoot t = Some root ->
  let path := octant_path key (Z.to_nat (tree_depth t)) in
  match search t value with
  | Found n =>
      exists pre post,
        path = pre ++ post /\ follow root pre = Some n
        /\ (post = [] \/ hasChildren n = false)
  | Null =>
      exists pre o post m,
        path = pre ++ o :: post /\ follow root pre = Some m
        /\ getChild m o = None /\ hasChildren m = true
  | NullDeref => False
  end.
Proof.
  intros Hd Hk Hr path. unfold search.
  rewrite Hk, Hr, search_levels_depth, search_loop_descend by assumption.
  fold path. pose proof (descend_on_path path root) as H.
  destruct (descend root path); exact H.
Qed.

Lemma search_on_path_witness :
  let root := Node 7 (fun i => if i =? 5 then Some (leaf 9) else None) in
  let t := mkOcTreeBase (Some root) 16 32768 one one
             (P3 (of_Z 32768) (of_Z 32768) (of_Z 32768)) 2
             (P3 zero zero zero) (P3 zero zero zero) true in
  let value := P3 half (of_Z (-3)) half in
  let path := octant_path (32768, 32765, 32768) (Z.to_nat (tree_depth t)) in
  match search t value with
  | Found n =>
      exists pre post,
        path = pre ++ post /\ follow root pre = Some n
        /\ (post = [] \/ hasChildren n = false)
  | Null =>
      exists pre o post m,
        path = pre ++ o :: post /\ follow root pre = Some m
        /\ getChild m o = None /\ hasChildren m = true
  | NullDeref => False
  end.
Proof.
  intros root t value.
  assert (Hd : 0 <= tree_depth t <= 31) by (cbn; lia).
  assert (Hk : genKeys t value = Some (32768, 32765, 32768))
    by (vm_compute; reflexivity).
  exact (search_on_path _ t value (32768, 32765, 32768) root Hd Hk eq_refl).
Defined.

(** ** The ray traversal *)

Lemma computeRay_fails_out_of_bounds (A : Type) (t : OcTreeBase A)
    (fuel : nat) (origin end_ : point3d) (ray0 : list point3d) :
  genKeys t origin = None \/ genKeys t end_ = None ->
  exists e ray, computeRay t fuel origin end_ ray0 = Some (RayFalse e, ray).
Proof.
  intros Hout. unfold computeRay.
  destruct (init_axis t origin end_ (unit (p_sub end_ origin)) 0)
    as [e0|a0] eqn:I0; [eexists; eexists; reflexivity|].
  destruct (init_axis t origin end_ (unit (p_sub end_ origin)) 1)
    as [e1|a1] eqn:I1; [eexists; eexists; reflexivity|].
  destruct (init_axis t origin end_ (unit (p_sub end_ origin)) 2)
    as [e2|a2] eqn:I2; [eexists; eexists; reflexivity|].
  exfalso.
  apply init_axis_inv in I0, I1, I2.
  destruct I0 as [O0 E0], I1 as [O1 E1], I2 as [O2 E2].
  rewrite (genKeys_of_axes t origin _ _ _ O0 O1 O2) in Hout.
  rewrite (genKeys_of_axes t end_ _ _ _ E0 E1 E2) in Hout.
  destruct Hout; discriminate.
Qed.

(** X8.  With [tree_max_val = 32768], [computeRay] returns [false] exactly
    when a coordinate of the origin or of the end does not encode,
    whatever the number of iterations it is given. *)
Theorem computeRay_false_iff_out_of_bounds (A : Type) (t : OcTreeBase A)
    (fuel : nat) (origin end_ : point3d) (ray0 : list point3d) :
  tree_max_val t = 32768 ->
  ((exists e ray,
      computeRay t fuel origin end_ ray0 = Some (RayFalse e, ray))
   <-> (genKeys t origin = None \/ genKeys t end_ = None)).
Proof.
  intros Hmax. split.
  - intros (e & ray & Hc). apply (computeRay_built t Hmax) in Hc.
    destruct e as [i|i|i|]; try contradiction; destruct Hc as [_ Hg].
    + left. exact (genKeys_axis_none t origin i Hg).
    + right. exact (genKeys_axis_none t end_ i Hg).
  - apply computeRay_fails_out_of_bounds.
Qed.

Lemma computeRay_false_iff_out_of_bounds_witness :
  let t := OcTreeBase_ctor Datatypes.unit one in
  let origin := P3 half half half in
  let end_ := P3 half (of_Z 40000) half in
  exists e ray, computeRay t 5 origin end_ [origin] = Some (RayFalse e, ray).
Proof.
  intros t origin end_.
  apply (proj2 (computeRay_false_iff_out_of_bounds _ t 5 origin end_ [origin]
                  eq_refl)).
  right. vm_compute. reflexivity.
Defined.

(** X9.  With [tree_max_val = 32768], no point of a sequence that
    [computeRay] returns with [true] is farther from the origin than the
    end is: for each, the test [norm2 > maxLength] of the loop is false. *)
Theorem computeRay_points_within_maxLength (A : Type) (t : OcTreeBase A)
    (fuel : nat) (origin end_ : point3d) (ray0 ray : list point3d) :
  tree_max_val t = 32768 ->
  computeRay t fuel origin end_ ray0 = Some (RayTrue, ray) ->
  Forall (fun p => dgt (norm2 (p_sub p origin))
                     (norm2 (p_sub end_ origin)) = false) ray.
Proof.
  intros Hmax Hc. exact (computeRay_built t Hmax _ _ _ _ _ _ Hc).
Qed.

Lemma computeRay_points_within_maxLength_witness :
  let t := OcTreeBase_ctor Datatypes.unit one in
  let origin := P3 zero zero zero in
  let end_ := P3 (of_Z 2) (of_Z 2) zero in
  match computeRay t 3 origin end_ [] with
  | Some (RayTrue, ray) =>
      Forall (fun p => dgt (norm2 (p_sub p origin))
                         (norm2 (p_sub end_ origin)) = false) ray
  | _ => False
  end.
Proof.
  intros t origin end_.
  destruct (computeRay t 3 origin end_ []) as [[[|e] ray]|] eqn:H.
  - exact (computeRay_points_within_maxLength _ t 3 origin end_ [] ray
             eq_refl H).
  - vm_compute in H. discriminate H.
  - vm_compute in H. discriminate H.
Defined.

(** X10.  The points [computeRay] hands back are the centres of a chain of
    voxels that starts next to the voxel of the origin: each voxel is the
    one before it with the index of a single axis advanced by that axis's
    step, which is -1, 0 or 1 (modulo 2^16, the width of the index). *)
Theorem computeRay_stepwise (A : Type) (t : OcTreeBase A) (fuel : nat)
    (origin end_ : point3d) (ray0 ray : list point3d)
    (status : ray_status) (k0 : arr3 Z) :
  genKeys t origin = Some k0 ->
  computeRay t fuel origin end_ ray0 = Some (status, ray) ->
  exists step ks,
    (forall i, (i < 3)%nat ->
       nth3 step i = -1 \/ nth3 step i = 0 \/ nth3 step i = 1)
    /\ stepwise step k0 ks
    /\ map (genVal3 t) ks = map Some ray.
Proof. apply computeRay_chain. Qed.

Lemma computeRay_stepwise_witness :
  let t := OcTreeBase_ctor Datatypes.unit one in
  let origin := P3 zero zero zero in
  let end_ := P3 (of_Z 2) (of_Z 2) zero in
  exists step ks,
    (forall i, (i < 3)%nat ->
       nth3 step i = -1 \/ nth3 step i = 0 \/ nth3 step i = 1)
    /\ stepwise step (32768, 32768, 32768) ks
    /\ map (genVal3 t) ks
       = map Some [P3 half (dyadic 3 (-1)) half;
                   P3 (dyadic 3 (-1)) (dyadic 3 (-1)) half].
Proof.
  intros t origin end_.
  apply (computeRay_stepwise _ t 3 origin end_ [] _ RayTrue);
    vm_compute; reflexivity.
Defined.

Lemma stays_within_all : all_below 16 0 stays_within = true.
Proof. vm_cast_no_check (eq_refl true). Qed.

Lemma ray_iter_goes_on (A : Type) (t : OcTreeBase A) origin maxLength step
    tDelta s value :
  let i := min_tMax (tMax s) in
  let k := advance step (voxelIdx s) i in
  (0 <=? nth3 k i) && (nth3 k i <? uint_of (2 * tree_max_val t)) = true ->
  genVal3 t k = Some value ->
  dgt (norm2 (p_sub value origin)) maxLength = false ->
  ray_iter t origin maxLength step tDelta s
  = inl (RayState k (upd3 (tMax s) i (dadd (nth3 (tMax s) i) (nth3 tDelta i)))
           (_ray s ++ [value])).
Proof.
  cbv zeta. unfold ray_iter.
  fold (advance step (voxelIdx s) (min_tMax (tMax s))).
  intros -> -> ->. reflexivity.
Qed.

Lemma genVal3_loop_row k :
  0 <= k < 65536 ->
  genVal3 (OcTreeBase_ctor Datatypes.unit one) (k, 32768, 32768)
  = Some (P3 (center_x k) half half).
Proof.
  intros Hk. unfold genVal3, genVal. cbn [nth3].
  change (tree_max_val (OcTreeBase_ctor Datatypes.unit one)) with 32768.
  change (resolution (OcTreeBase_ctor Datatypes.unit one)) with one.
  change (uint_of (2 * 32768)) with 65536.
  change (65536 <=? 32768) with false. cbv iota.
  destruct (65536 <=? k) eqn:E; [apply Z.leb_le in E; lia|].
  replace (dmul (dadd (dsub (of_Z 32768) (of_Z 32768)) half) one) with half
    by (vm_compute; reflexivity).
  reflexivity.
Qed.

Lemma stays_within_spec k :
  stays_within k = true ->
  dgt (norm2 (p_sub (P3 (center_x k) half half) loop_origin))
      (norm2 (p_sub loop_end loop_origin)) = false.
Proof.
  intros H. apply negb_true_iff in H.
  unfold norm2 at 1. unfold p_sub at 1 2 3. unfold loop_origin at 1 2 3.
  cbn [px py pz].
  replace (dsub half half) with zero by (vm_compute; reflexivity).
  replace (dmul zero zero) with zero by (vm_compute; reflexivity).
  exact H.
Qed.

Lemma loop_never_ends fuel tDelta :
  forall s k,
    0 <= k < 65536 -> voxelIdx s = (k, 32768, 32768) ->
    computeRay_loop (OcTreeBase_ctor Datatypes.unit one) fuel loop_origin
      (norm2 (p_sub loop_end loop_origin)) (1, 0, 0) tDelta s = None.
Proof.
  induction fuel as [|fuel IH]; intros s k Hk Hs; [reflexivity|].
  cbn [computeRay_loop].
  set (t := OcTreeBase_ctor Datatypes.unit one) in *.
  set (i := min_tMax (tMax s)).
  assert (Hadv : exists k', 0 <= k' < 65536
                   /\ advance (1, 0, 0) (voxelIdx s) i = (k', 32768, 32768)).
  { rewrite Hs. unfold advance. destruct i as [|[|i]]; cbn [nth3 upd3].
    - exists (ushort_of (k + 1)). split; [apply ushort_of_range|reflexivity].
    - exists k. split; [assumption|reflexivity].
    - exists k. split; [assumption|reflexivity]. }
  destruct Hadv as (k' & Hk' & Ek').
  pose proof (all_below_spec 16 stays_within 0 stays_within_all k') as W.
  change (0 * 2 ^ Z.of_nat 16) with 0 in W.
  change ((0 + 1) * 2 ^ Z.of_nat 16) with 65536 in W.
  specialize (W Hk'). apply stays_within_spec in W.
  pose proof (genVal3_loop_row k' Hk') as G. fold t in G.
  rewrite (ray_iter_goes_on _ t loop_origin _ (1, 0, 0) tDelta s
             (P3 (center_x k') half half)).
  - apply (IH _ k' Hk'). cbn [voxelIdx]. exact Ek'.
  - fold i. unfold advance. apply (boundary_test_true t eq_refl).
  - fold i. rewrite Ek'. exact G.
  - exact W.
Qed.

(** X11.  [computeRay] need not return.  In a tree of resolution 1.0, for
    the origin (-1.5, 0.5, 0.5) and the end (32767.75, 0.5, 0.5), which
    both encode, the x index runs up to 65535, wraps to 0 and goes round
    again; no voxel centre on the way is farther from the origin than the
    end is, so no number of iterations ends the loop. *)
Theorem computeRay_never_returns (fuel : nat) (ray0 : list point3d) :
  let t := OcTreeBase_ctor Datatypes.unit one in
  genKeys t loop_origin = Some (32766, 32768, 32768)
  /\ genKeys t loop_end = Some (65535, 32768, 32768)
  /\ computeRay t fuel loop_origin loop_end ray0 = None.
Proof.
  intros t. split; [vm_compute; reflexivity|].
  split; [vm_compute; reflexivity|].
  unfold computeRay.
  destruct (init_axis t loop_origin loop_end
              (unit (p_sub loop_end loop_origin)) 0) as [e0|a0] eqn:I0;
    [vm_compute in I0; discriminate I0|].
  destruct (init_axis t loop_origin loop_end
              (unit (p_sub loop_end loop_origin)) 1) as [e1|a1] eqn:I1;
    [vm_compute in I1; discriminate I1|].
  destruct (init_axis t loop_origin loop_end
              (unit (p_sub loop_end loop_origin)) 2) as [e2|a2] eqn:I2;
    [vm_compute in I2; discriminate I2|].
  vm_compute in I0, I1, I2.
  injection I0 as <-. injection I1 as <-. injection I2 as <-.
  cbn [a_voxelIdx a_endIdx a_step a_tDelta a_tMax nth3].
  change (32766 =? 65535) with false. cbn [andb].
  apply (loop_never_ends fuel _ _ 32766); [lia|reflexivity].
Qed.

(** ** Enumeration of leaves *)

Section LeafFacts.
Context {A : Type}.
Variable t : OcTreeBase A.

Lemma getLeafNodesRecurs_eq max_depth (n : node A) depth center :
  getLeafNodesRecurs t max_depth n depth center =
    if depth <=? max_depth then
      if (depth <? max_depth) && hasChildren n then
        flat_map (fun i =>
            match getChild n i with
            | Some child =>
                getLeafNodesRecurs t max_depth child (depth + 1)
                  (search_center center (center_offset t depth) i)
            | None => []
            end) octants
      else [(p_sub center (tree_center t), voxelSize t depth)]
    else [].
Proof.
  destruct n as [a cs]. cbn [getLeafNodesRecurs].
  destruct (Z.leb_spec depth max_depth), (Z.ltb_spec depth max_depth),
    (Z.eqb_spec depth max_depth); try lia; cbn [negb andb];
    rewrite ?andb_true_r, ?andb_false_r; reflexivity.
Qed.

Lemma leaves_eq (n : node A) :
  leaves n =
    if hasChildren n then
      list_sum (map (fun i => match getChild n i with
                              | Some child => leaves child
                              | None => 0%nat
                              end) octants)
    else 1%nat.
Proof. destruct n; reflexivity. Qed.

Lemma list_sum_head x l : list_sum (x :: l) = (x + list_sum l)%nat.
Proof. reflexivity. Qed.

Lemma length_flat_map_sum {X Y} (f : X -> list Y) l :
  length (flat_map f l) = list_sum (map (fun x => length (f x)) l).
Proof.
  induction l as [|x l IH]; [reflexivity|].
  cbn [flat_map map]. rewrite list_sum_head, length_app, IH. reflexivity.
Qed.

Lemma hasChildren_true (n : node A) :
  hasChildren n = true ->
  exists i child, In i octants /\ getChild n i = Some child.
Proof.
  unfold hasChildren. intros H. apply existsb_exists in H.
  destruct H as (i & Hi & C). unfold childExists in C.
  destruct (getChild n i) as [child|] eqn:E; [|discriminate].
  exists i, child. split; [assumption|exact E].
Qed.

Lemma getLeafNodesRecurs_nonempty max_depth (n : node A) :
  forall depth center,
    depth <= max_depth ->
    getLeafNodesRecurs t max_depth n depth center <> [].
Proof.
  induction n as [a cs IH] using node_ind'. intros depth center Hd.
  rewrite getLeafNodesRecurs_eq.
  destruct (Z.leb_spec depth max_depth); [|lia].
  destruct (Z.ltb_spec depth max_depth); cbn [andb]; [|discriminate].
  destruct (hasChildren (Node a cs)) eqn:C; [|discriminate].
  destruct (hasChildren_true _ C) as (i & child & Hi & E).
  intros F.
  assert (G : forall x, In x octants ->
            match getChild (Node a cs) x with
            | Some child =>
                getLeafNodesRecurs t max_depth child (depth + 1)
                  (search_center center (center_offset t depth) x)
            | None => []
            end = []).
  { intros x Hx.
    destruct (match getChild (Node a cs) x with
              | Some child => _ | None => [] end) as [|v l] eqn:M;
      [reflexivity|].
    assert (In v (flat_map (fun i =>
               match getChild (Node a cs) i with
               | Some child =>
                   getLeafNodesRecurs t max_depth child (depth + 1)
                     (search_center center (center_offset t depth) i)
               | None => []
               end) octants)).
    { apply in_flat_map. exists x. split; [assumption|].
      rewrite M. left. reflexivity. }
    rewrite F in H1. destruct H1. }
  specialize (G i Hi). rewrite E in G.
  exact (IH i child E (depth + 1) _ ltac:(lia) G).
Qed.

Lemma getLeafNodesRecurs_leaves max_depth h :
  forall (n : node A) depth center,
    height_le h n -> depth + Z.of_nat h <= max_depth ->
    length (getLeafNodesRecurs t max_depth n depth center) = leaves n.
Proof.
  induction h as [|h IH]; intros n depth center Hh Hd;
    rewrite getLeafNodesRecurs_eq, leaves_eq.
  - cbn [height_le] in Hh. rewrite Hh, andb_false_r.
    destruct (Z.leb_spec depth max_depth); [reflexivity|lia].
  - destruct (Z.leb_spec depth max_depth); [|lia].
    destruct (Z.ltb_spec depth max_depth); [|lia]. cbn [andb].
    destruct (hasChildren n); [|reflexivity].
    rewrite length_flat_map_sum. f_equal. apply map_ext_in.
    intros i Hi. destruct (getChild n i) as [child|] eqn:E; [|reflexivity].
    apply IH; [exact (Hh i child Hi E)|lia].
Qed.

Lemma sum_relation {X} (a b c : X -> nat) l :
  (forall x, In x l -> (a x + b x = 7 * c x + 1)%nat) ->
  (list_sum (map a l) + list_sum (map b l)
   = 7 * list_sum (map c l) + length l)%nat.
Proof.
  induction l as [|x l IH]; intros H; [reflexivity|].
  cbn [map length]. rewrite !list_sum_head.
  pose proof (H x (or_introl eq_refl)).
  assert (forall y, In y l -> (a y + b y = 7 * c y + 1)%nat)
    by (intros y Hy; apply H; right; exact Hy).
  specialize (IH H1). lia.
Qed.

Lemma leaves_and_gaps max_depth (n : node A) :
  forall depth center,
    depth <= max_depth ->
    (length (getLeafNodesRecurs t max_depth n depth center)
     + length (getVoxelsRecurs t max_depth n depth center)
     = 7 * length (internal_nodes t max_depth n depth center) + 1)%nat.
Proof.
  induction n as [a cs IH] using node_ind'. intros depth center Hd.
  rewrite getLeafNodesRecurs_eq, getVoxelsRecurs_eq, internal_nodes_eq.
  destruct (Z.leb_spec depth max_depth); [|lia].
  destruct (Z.ltb_spec depth max_depth); cbn [andb]; [|reflexivity].
  destruct (hasChildren (Node a cs)); [|reflexivity].
  cbn [length]. rewrite !length_flat_map_sum.
  rewrite (sum_relation _ _
             (fun i => length
                match getChild (Node a cs) i with
                | Some child =>
                    internal_nodes t max_depth child (depth + 1)
                      (search_center center (center_offset t depth) i)
                | None => []
                end) octants).
  - cbn [octants length]. lia.
  - intros i Hi. destruct (getChild (Node a cs) i) as [child|] eqn:E.
    + apply (IH i child E). lia.
    + reflexivity.
Qed.

End LeafFacts.

(** X12.  [getLeafNodes] leaves [nodes] alone when the tree holds at most
    one node, and otherwise appends at least one volume, whatever the shape
    of the tree and the depth cutoff. *)
Theorem getLeafNodes_appends (A : Type) (t : OcTreeBase A)
    (nodes : list OcTreeVolume) (max_depth : Z) (root : node A) :
  itsRoot t = Some root ->
  0 <= tree_depth t -> 0 <= max_depth ->
  (tree_size t <= 1 -> getLeafNodes t nodes max_depth = Some nodes)
  /\ (1 < tree_size t ->
      exists v out, getLeafNodes t nodes max_depth = Some (nodes ++ v :: out)).
Proof.
  intros Hr Hd Hm. unfold getLeafNodes. rewrite Hr. split; intros Hs.
  - apply Z.leb_le in Hs. rewrite Hs. reflexivity.
  - apply Z.leb_gt in Hs. rewrite Hs.
    set (cutoff := if max_depth =? 0 then tree_depth t else max_depth).
    assert (Hc : 0 <= cutoff)
      by (unfold cutoff; destruct (max_depth =? 0); lia).
    pose proof (getLeafNodesRecurs_nonempty t cutoff root 0 (tree_center t) Hc)
      as N.
    destruct (getLeafNodesRecurs t cutoff root 0 (tree_center t)) as [|v out];
      [contradiction|].
    exists v, out. reflexivity.
Qed.

Lemma getLeafNodes_appends_witness :
  let root := Node 7 (fun i => if i =? 3 then Some (leaf 9) else None) in
  let t := mkOcTreeBase (Some root) 16 32768 one one
             (P3 (of_Z 32768) (of_Z 32768) (of_Z 32768)) 2
             (P3 zero zero zero) (P3 zero zero zero) true in
  exists v out, getLeafNodes t [] 0 = Some ([] ++ v :: out).
Proof.
  intros root t.
  assert (Hr : itsRoot t = Some root) by reflexivity.
  assert (Hd : 0 <= tree_depth t) by (cbn; lia).
  assert (Hs : 1 < tree_size t) by (cbn; lia).
  exact (proj2 (getLeafNodes_appends Z t [] 0 root Hr Hd (Z.le_refl 0)) Hs).
Defined.

(** X13.  When the depth cutoff lies below the whole tree, [getLeafNodes]
    appends exactly one volume for every node without children. *)
Theorem getLeafNodes_counts_leaves (A : Type) (t : OcTreeBase A)
    (nodes : list OcTreeVolume) (max_depth : Z) (root : node A) (h : nat) :
  itsRoot t = Some root ->
  1 < tree_size t ->
  height_le h root ->
  Z.of_nat h <= (if max_depth =? 0 then tree_depth t else max_depth) ->
  exists out,
    getLeafNodes t nodes max_depth = Some (nodes ++ out)
    /\ length out = leaves root.
Proof.
  intros Hr Hs Hh Hc. unfold getLeafNodes. rewrite Hr.
  apply Z.leb_gt in Hs. rewrite Hs.
  eexists. split; [reflexivity|].
  apply (getLeafNodesRecurs_leaves t _ h); [exact Hh|lia].
Qed.

Lemma getLeafNodes_counts_leaves_witness :
  let root := Node 7 (fun i => if i <? 3 then Some (leaf i) else None) in
  let t := mkOcTreeBase (Some root) 16 32768 one one
             (P3 (of_Z 32768) (of_Z 32768) (of_Z 32768)) 4
             (P3 zero zero zero) (P3 zero zero zero) true in
  exists out,
    getLeafNodes t [] 0 = Some ([] ++ out) /\ length out = leaves root.
Proof.
  intros root t.
  assert (Hr : itsRoot t = Some root) by reflexivity.
  assert (Hs : 1 < tree_size t) by (cbn; lia).
  assert (Hh : height_le 1 root).
  { cbn [height_le]. intros i child _ E. cbn [getChild root] in E.
    destruct (i <? 3); [|discriminate]. injection E as <-. reflexivity. }
  assert (Hc : Z.of_nat 1 <= (if 0 =? 0 then tree_depth t else 0))
    by (cbn; lia).
  exact (getLeafNodes_counts_leaves Z t [] 0 root 1 Hr Hs Hh Hc).
Defined.

(** X14.  The two traversals account for every octant once: the volumes
    [getLeafNodesRecurs] pushes and the volumes [getVoxelsRecurs] pushes
    are together seven for every internal node above the cutoff, and one
    more. *)
Theorem leaf_and_gap_volumes (A : Type) (t : OcTreeBase A) (max_depth : Z)
    (n : node A) (depth : Z) (center : point3d) :
  depth <= max_depth ->
  (length (getLeafNodesRecurs t max_depth n depth center)
   + length (getVoxelsRecurs t max_depth n depth center)
   = 7 * length (internal_nodes t max_depth n depth center) + 1)%nat.
Proof. apply leaves_and_gaps. Qed.

Lemma leaf_and_gap_volumes_witness :
  let root := Node 7 (fun i => if i <? 3 then Some (leaf i) else None) in
  let t := mkOcTreeBase (Some root) 16 32768 one one
             (P3 (of_Z 32768) (of_Z 32768) (of_Z 32768)) 4
             (P3 zero zero zero) (P3 zero zero zero) true in
  (length (getLeafNodesRecurs t 16 root 0 (tree_center t))
   + length (getVoxelsRecurs t 16 root 0 (tree_center t))
   = 7 * length (internal_nodes t 16 root 0 (tree_center t)) + 1)%nat.
Proof.
  intros root t.
  exact (leaf_and_gap_volumes Z t 16 root 0 (tree_center t) ltac:(lia)).
Defined.

Section GapFacts.
Context {A : Type}.
Variable t : OcTreeBase A.

Lemma flat_map_nil_iff {X Y} (f : X -> list Y) l :
  flat_map f l = [] <-> (forall x, In x l -> f x = []).
Proof.
  induction l as [|x l IH]; cbn [flat_map].
  - split; [intros _ y []|reflexivity].
  - split.
    + intros H. apply app_eq_nil in H. destruct H as [Hx Hl].
      intros y [<-|Hy]; [exact Hx|]. apply IH; assumption.
    + intros H. rewrite (H x (or_introl eq_refl)).
      apply IH. intros y Hy. apply H. right. exact Hy.
Qed.

Lemma gap_records_nil (n : node A) depth center :
  gap_records t (n, depth, center) = []
  <-> (forall i, In i octants -> childExists n i = true).
Proof.
  unfold gap_records.
  set (l := octants). clearbody l.
  induction l as [|i l IH]; cbn [filter map].
  - split; [intros _ j []|reflexivity].
  - destruct (childExists n i) eqn:C; cbn [negb map].
    + rewrite IH. split.
      * intros H j [<-|Hj]; [exact C|apply H; exact Hj].
      * intros H j Hj. apply H. right. exact Hj.
    + split; [discriminate|].
      intros H. specialize (H i (or_introl eq_refl)). congruence.
Qed.

Lemma getLeafNodesRecurs_sizes max_depth (n : node A) :
  forall depth center c s,
    In (c, s) (getLeafNodesRecurs t max_depth n depth center) ->
    exists d, depth <= d <= max_depth /\ s = voxelSize t d.
Proof.
  induction n as [a cs IH] using node_ind'. intros depth center c s.
  rewrite getLeafNodesRecurs_eq.
  destruct (Z.leb_spec depth max_depth); [|intros []].
  destruct (Z.ltb_spec depth max_depth); cbn [andb].
  - destruct (hasChildren (Node a cs)).
    + intros I. apply in_flat_map in I. destruct I as (i & _ & I).
      destruct (getChild (Node a cs) i) as [child|] eqn:E; [|destruct I].
      apply (IH i child E) in I. destruct I as (d & Hd & ->).
      exists d. split; [lia|reflexivity].
    + intros [[= _ <-]|[]]. exists depth. split; [lia|reflexivity].
  - intros [[= _ <-]|[]]. exists depth. split; [lia|reflexivity].
Qed.

End GapFacts.

(** X15.  [getVoxelsRecurs] pushes nothing exactly when every internal
    node above the cutoff has all eight children. *)
Theorem getVoxelsRecurs_nil_iff_full (A : Type) (t : OcTreeBase A)
    (max_depth : Z) (n : node A) (depth : Z) (center : point3d) :
  getVoxelsRecurs t max_depth n depth center = []
  <-> (forall n' d' c',
         In (n', d', c') (internal_nodes t max_depth n depth center) ->
         forall i, In i octants -> childExists n' i = true).
Proof.
  pose proof (getVoxelsRecurs_gaps t max_depth n depth center) as P.
  split.
  - intros E n' d' c' I. rewrite E in P. apply Permutation_nil in P.
    apply (proj1 (flat_map_nil_iff _ _)) with (x := (n', d', c')) in P;
      [|exact I].
    apply (proj1 (gap_records_nil t n' d' c')). exact P.
  - intros H. apply Permutation_sym in P.
    assert (E : flat_map (gap_records t)
                  (internal_nodes t max_depth n depth center) = []).
    { apply flat_map_nil_iff. intros [[n' d'] c'] I.
      apply gap_records_nil. exact (H n' d' c' I). }
    rewrite E in P. apply Permutation_nil in P. exact P.
Qed.

(** X16.  With a cutoff of at most [tree_depth], every volume
    [getLeafNodesRecurs] pushes has the edge
    [resolution * 2^(tree_depth - d)] of a depth [d] between the depth it
    was called at and the cutoff. *)
Theorem getLeafNodesRecurs_edges (A : Type) (t : OcTreeBase A)
    (max_depth : Z) (n : node A) (depth : Z) (center c : point3d)
    (s : double) :
  0 <= depth -> max_depth <= tree_depth t -> tree_depth t <= 1023 ->
  In (c, s) (getLeafNodesRecurs t max_depth n depth center) ->
  exists d,
    depth <= d <= max_depth
    /\ s = dmul (resolution t) (of_Z (2 ^ (tree_depth t - d))).
Proof.
  intros H0 Hm Hd I.
  destruct (getLeafNodesRecurs_sizes t max_depth n depth center c s I)
    as (d & Hr & ->).
  exists d. split; [exact Hr|].
  apply (voxelSize_spec t Hd). lia.
Qed.

Lemma getLeafNodesRecurs_edges_witness :
  let root := Node 7 (fun i => if i <? 3 then Some (leaf i) else None) in
  let t := mkOcTreeBase (Some root) 16 32768 one one
             (P3 (of_Z 32768) (of_Z 32768) (of_Z 32768)) 4
             (P3 zero zero zero) (P3 zero zero zero) true in
  exists d,
    0 <= d <= 16
    /\ pow2 15 = dmul (resolution t) (of_Z (2 ^ (tree_depth t - d))).
Proof.
  intros root t.
  apply (getLeafNodesRecurs_edges Z t 16 root 0 (tree_center t)
           (P3 (of_Z (-16384)) (of_Z (-16384)) (of_Z (-16384))) (pow2 15)).
  - lia.
  - cbn. lia.
  - cbn. lia.
  - vm_compute. left. reflexivity.
Defined.

(** ** The ray traversal and the codec *)

Section RayCodec.
Context {A : Type}.
Variable t : OcTreeBase A.
Hypothesis Hmax : tree_max_val t = 32768.
Hypothesis Hrf : resolution_factor t = ddiv one (resolution t).
Hypothesis Hres : resolution_ok (resolution t).

Lemma genKey_of_genVal key val :
  0 < key < 65536 -> genKey t (snd (genVal t key val)) = Some key.
Proof.
  intros Hk. rewrite genKey_eq by (rewrite Hmax; lia).
  rewrite (round_trip_floor t Hmax Hrf Hres key val) by lia.
  rewrite Hmax. cbv zeta.
  replace (key - 32768 + 32768) with key by lia.
  assert (E1 : (0 <? key) = true) by (apply Z.ltb_lt; lia).
  assert (E2 : (key <? 2 * 32768) = true) by (apply Z.ltb_lt; lia).
  rewrite E1, E2. reflexivity.
Qed.

Lemma genKeys_of_genVal3 k p :
  ushort3 k -> genVal3 t k = Some p ->
  0 < nth3 k 0 -> 0 < nth3 k 1 -> 0 < nth3 k 2 ->
  genKeys t p = Some k.
Proof.
  intros (U0 & U1 & U2) G P0 P1 P2. unfold genVal3 in G.
  destruct (genVal t (nth3 k 0) zero) as [[|] v0] eqn:G0; [|discriminate].
  destruct (genVal t (nth3 k 1) zero) as [[|] v1] eqn:G1; [|discriminate].
  destruct (genVal t (nth3 k 2) zero) as [[|] v2] eqn:G2; [|discriminate].
  injection G as <-.
  pose proof (genKey_of_genVal (nth3 k 0) zero ltac:(lia)) as K0.
  pose proof (genKey_of_genVal (nth3 k 1) zero ltac:(lia)) as K1.
  pose proof (genKey_of_genVal (nth3 k 2) zero ltac:(lia)) as K2.
  rewrite G0 in K0. rewrite G1 in K1. rewrite G2 in K2. cbn [snd] in *.
  destruct k as [[a b] c]. cbn [nth3] in *.
  apply genKeys_of_axes; assumption.
Qed.

Lemma stepwise_ushort step :
  forall ks k, ushort3 k -> stepwise step k ks -> Forall ushort3 ks.
Proof.
  induction ks as [|k' ks IH]; intros k Hk Hs; [constructor|].
  cbn [stepwise] in Hs. destruct Hs as [(i & _ & ->) Hs].
  assert (U : ushort3 (advance step k i))
    by (unfold advance; apply ushort3_upd3; exact Hk).
  constructor; [exact U|]. exact (IH _ U Hs).
Qed.

End RayCodec.

(** X17.  The traversal and the codec agree.  In a tree with
    [tree_max_val = 32768] and [resolution_factor = 1/resolution] whose
    resolution is a normal double with [2^-1021 <= resolution < 2^1008],
    every point [computeRay] hands back is the centre of a voxel, and
    unless one of the voxel's indices is 0 the point encodes with
    [genKeys] to exactly these indices. *)
Theorem computeRay_points_encode (A : Type) (t : OcTreeBase A) (fuel : nat)
    (origin end_ : point3d) (ray0 ray : list point3d)
    (status : ray_status) :
  tree_max_val t = 32768 ->
  resolution_factor t = ddiv one (resolution t) ->
  resolution_ok (resolution t) ->
  computeRay t fuel origin end_ ray0 = Some (status, ray) ->
  Forall (fun p =>
            exists k, ushort3 k /\ genVal3 t k = Some p
                      /\ (0 < nth3 k 0 -> 0 < nth3 k 1 -> 0 < nth3 k 2 ->
                          genKeys t p = Some k)) ray.
Proof.
  intros Hmax Hrf Hres Hc.
  destruct (genKeys t origin) as [k0|] eqn:Hk.
  - assert (U0 : ushort3 k0).
    { apply genKeys_inv in Hk. destruct Hk as (K0 & K1 & K2).
      apply genKey_ushort in K0, K1, K2. exact (conj K0 (conj K1 K2)). }
    destruct (computeRay_chain A t fuel origin end_ ray0 ray status k0
                Hk Hc) as (step & ks & _ & Hs & Hm).
    pose proof (stepwise_ushort step ks k0 U0 Hs) as Hu.
    clear Hs Hc. revert ray Hm.
    induction Hu as [|k ks Uk Hu IH]; intros ray Hm;
      destruct ray as [|p ray]; try discriminate; constructor.
    + cbn [map] in Hm. injection Hm as G Hm.
      exists k. split; [exact Uk|]. split; [exact G|].
      intros P0 P1 P2.
      exact (genKeys_of_genVal3 t Hmax Hrf Hres k p Uk G P0 P1 P2).
    + cbn [map] in Hm. injection Hm as _ Hm. exact (IH ray Hm).
  - assert (F : exists e r, computeRay t fuel origin end_ ray0
                              = Some (RayFalse e, r)).
    { apply (computeRay_fails_out_of_bounds A t fuel origin end_ ray0).
      left. exact Hk. }
    destruct F as (e & r & F). rewrite F in Hc. injection Hc as <- <-.
    apply (computeRay_built t Hmax) in F.
    destruct e as [i|i|i|]; try contradiction; destruct F as [-> _];
      constructor.
Qed.

Lemma computeRay_points_encode_witness :
  let t := OcTreeBase_ctor Datatypes.unit one in
  let origin := P3 zero zero zero in
  let end_ := P3 (of_Z 2) (of_Z 2) zero in
  Forall (fun p =>
            exists k, ushort3 k /\ genVal3 t k = Some p
                      /\ (0 < nth3 k 0 -> 0 < nth3 k 1 -> 0 < nth3 k 2 ->
                          genKeys t p = Some k))
    [P3 half (dyadic 3 (-1)) half; P3 (dyadic 3 (-1)) (dyadic 3 (-1)) half].
Proof.
  intros t origin end_.
  apply (computeRay_points_encode _ t 3 origin end_ [] _ RayTrue).
  - reflexivity.
  - reflexivity.
  - vm_compute. repeat split; discriminate.
  - vm_compute. reflexivity.
Defined.

(** ** Coordinates that are not numbers *)

Lemma dmul_non_finite x y :
  non_finite y = true -> Zfloor (dmul x y) = None.
Proof.
  destruct y as [s| | |s m e]; try discriminate; intros _;
    destruct x as [s'|s'| |s' m' e']; reflexivity.
Qed.

(** X18.  A point with a coordinate that is a NaN or an infinity is turned
    away at every entry: [genKeys] fails on it, [search] returns [NULL], and
    [computeRay] returns [false] whether the point is the origin or the end
    of the ray.  ([floor] of such a product is not a number of the range of
    [int]; the cast is taken as in [int_of_floor].) *)
Theorem non_finite_rejected (A : Type) (t : OcTreeBase A) (p : point3d)
    (i : nat) :
  0 < tree_max_val t <= 32768 ->
  non_finite (coord p i) = true ->
  genKeys t p = None
  /\ search t p = Null
  /\ forall fuel q ray0,
       (exists e ray, computeRay t fuel p q ray0 = Some (RayFalse e, ray))
       /\ (exists e ray, computeRay t fuel q p ray0 = Some (RayFalse e, ray)).
Proof.
  intros Ht Hn.
  assert (K : genKeys t p = None).
  { apply (genKeys_axis_none t p i). rewrite genKey_eq by exact Ht.
    rewrite dmul_non_finite by exact Hn. reflexivity. }
  split; [exact K|]. split.
  - unfold search. rewrite K. reflexivity.
  - intros fuel q ray0. split.
    + apply computeRay_fails_out_of_bounds. left. exact K.
    + apply computeRay_fails_out_of_bounds. right. exact K.
Qed.

Lemma non_finite_rejected_witness :
  let t := OcTreeBase_ctor Datatypes.unit one in
  let p := P3 half S754_nan half in
  genKeys t p = None
  /\ search t p = Null
  /\ forall fuel q ray0,
       (exists e ray, computeRay t fuel p q ray0 = Some (RayFalse e, ray))
       /\ (exists e ray, computeRay t fuel q p ray0 = Some (RayFalse e, ray)).
Proof.
  intros t p.
  apply (non_finite_rejected _ t p 1); [cbn; lia|reflexivity].
Defined.

(** ** How the traversal ends *)

Section RayExit.
Context {A : Type}.
Variable t : OcTreeBase A.
Hypothesis Hmax : tree_max_val t = 32768.

Lemma computeRay_loop_exit fuel origin maxLength step tDelta :
  forall s status ray,
    ushort3 (voxelIdx s) ->
    computeRay_loop t fuel origin maxLength step tDelta s
      = Some (status, ray) ->
    status = RayTrue
    /\ exists k value,
         ushort3 k /\ genVal3 t k = Some value
         /\ dgt (norm2 (p_sub value origin)) maxLength = true.
Proof.
  induction fuel as [|fuel IH]; intros s status ray Hk; [discriminate|].
  cbn [computeRay_loop].
  pose proof (ray_iter_built t Hmax origin maxLength step tDelta s Hk) as B.
  destruct (ray_iter t origin maxLength step tDelta s) as [s'|[st r]] eqn:E.
  - destruct B as (Hk' & _). apply (IH s' status ray Hk').
  - destruct B as (-> & _). intros [= <- _]. split; [reflexivity|].
    unfold ray_iter in E. rewrite (boundary_test_true t Hmax) in E.
    pose proof (ushort3_upd3 (voxelIdx s) (min_tMax (tMax s))
                  (nth3 (voxelIdx s) (min_tMax (tMax s))
                   + nth3 step (min_tMax (tMax s))) Hk) as Hk'.
    destruct (genVal3 t _) as [value|] eqn:G; [|discriminate E].
    destruct (dgt (norm2 (p_sub value origin)) maxLength) eqn:D;
      [|discriminate E].
    eexists; exists value. split; [exact Hk'|]. split; [exact G|exact D].
Qed.

End RayExit.

Lemma dgt_true_bounded x y :
  dgt x y = true -> is_nan y = false /\ y <> S754_infinity false.
Proof.
  unfold dgt, SFltb. intros H.
  destruct y as [s|[|]| |s m e]; try (split; [reflexivity|discriminate]).
  - destruct x as [s'|[|]| |[|] m' e']; discriminate H.
  - destruct x; discriminate H.
Qed.

(** X19.  The loop of [computeRay] ends only at the distance test: when
    origin and end encode to different voxels and the call returns, it
    returns [true] and some voxel centre is farther from the origin than
    the end is.  So a call whose [maxLength] is a NaN or [+inf] (the norm
    of [end - origin] overflows) does not return, and reaching the voxel
    of the end does not by itself end the traversal. *)
Theorem computeRay_returns_beyond_maxLength (A : Type) (t : OcTreeBase A)
    (fuel : nat) (origin end_ : point3d) (ray0 ray : list point3d)
    (status : ray_status) (ko ke : arr3 Z) :
  tree_max_val t = 32768 ->
  genKeys t origin = Some ko -> genKeys t end_ = Some ke -> ko <> ke ->
  computeRay t fuel origin end_ ray0 = Some (status, ray) ->
  status = RayTrue
  /\ (exists k value,
        ushort3 k /\ genVal3 t k = Some value
        /\ dgt (norm2 (p_sub value origin)) (norm2 (p_sub end_ origin)) = true)
  /\ is_nan (norm2 (p_sub end_ origin)) = false
  /\ norm2 (p_sub end_ origin) <> S754_infinity false.
Proof.
  intros Hmax Ho He Hne Hc.
  assert (Hu : ushort3 ko).
  { apply genKeys_inv in Ho. destruct Ho as (O0 & O1 & O2).
    unfold ushort3. repeat split;
      eapply genKey_ushort; eassumption. }
  apply genKeys_inv in Ho, He.
  destruct Ho as (O0 & O1 & O2), He as (E0 & E1 & E2).
  unfold computeRay in Hc.
  set (direction := unit (p_sub end_ origin)) in Hc.
  destruct (init_axis_ok t origin end_ direction 0 _ _ O0 E0)
    as (a0 & I0 & V0 & W0).
  destruct (init_axis_ok t origin end_ direction 1 _ _ O1 E1)
    as (a1 & I1 & V1 & W1).
  destruct (init_axis_ok t origin end_ direction 2 _ _ O2 E2)
    as (a2 & I2 & V2 & W2).
  rewrite I0, I1, I2 in Hc. cbv zeta in Hc. cbn [nth3] in Hc.
  rewrite V0, V1, V2, W0, W1, W2 in Hc.
  destruct ((nth3 ko 0 =? nth3 ke 0) && (nth3 ko 1 =? nth3 ke 1)
            && (nth3 ko 2 =? nth3 ke 2)) eqn:Same.
  - exfalso. apply Hne.
    apply andb_prop in Same. destruct Same as [Same S2].
    apply andb_prop in Same. destruct Same as [S0 S1].
    apply Z.eqb_eq in S0, S1, S2.
    destruct ko as [[o0 o1] o2], ke as [[e0 e1] e2]. cbn [nth3] in *.
    congruence.
  - apply (computeRay_loop_exit t Hmax) in Hc.
    + destruct Hc as (-> & k & value & Hk & G & D).
      split; [reflexivity|]. split; [exists k, value; auto|].
      apply (dgt_true_bounded _ _ D).
    + cbn [voxelIdx]. destruct ko as [[o0 o1] o2]. exact Hu.
Qed.

Lemma computeRay_returns_beyond_maxLength_witness :
  let t := OcTreeBase_ctor Datatypes.unit one in
  let origin := P3 zero zero zero in
  let end_ := P3 (of_Z 2) (of_Z 2) zero in
  RayTrue = RayTrue
  /\ (exists k value,
        ushort3 k /\ genVal3 t k = Some value
        /\ dgt (norm2 (p_sub value origin)) (norm2 (p_sub end_ origin)) = true)
  /\ is_nan (norm2 (p_sub end_ origin)) = false
  /\ norm2 (p_sub end_ origin) <> S754_infinity false.
Proof.
  intros t origin end_.
  apply (computeRay_returns_beyond_maxLength _ t 3 origin end_ []
           [P3 half (dyadic 3 (-1)) half;
            P3 (dyadic 3 (-1)) (dyadic 3 (-1)) half]
           RayTrue (32768, 32768, 32768) (32770, 32770, 32768));
    try (vm_compute; reflexivity).
  intros [=].
Defined.
